(** * AskBetter: the question-review schema, the PII scanner and the two
      front-end scripts (askBetterAgentCLI.py, askBetterAgentST.py).

    The development follows the Python sources:
    - Python [str] values are sequences of Unicode code points;
    - [re.search] is a backtracking matcher over a syntax tree of the three
      patterns of [pii_scan];
    - the pydantic models are records with a validate-or-reject function;
    - the module-level scripts are programs in a small monad that threads the
      standard input and an event trace and may raise. *)

From Stdlib Require Import ZArith NArith Ascii String List Bool Lia.
From stdpp Require Import base option list strings gmap.

Local Open Scope N_scope.

(** ** Python strings *)

(** A Python [str]: its code points, in order. [len] is [length]. *)
Definition str : Type := list N.

(** An ASCII literal of the sources as a [str]. *)
Definition lit (s : string) : str :=
  (fun a : ascii => N_of_ascii a) <$> list_ascii_of_string s.

Definition chr (a : ascii) : N := N_of_ascii a.

(** Truth value of a string ([if s:], [not s]). *)
Definition truthy (s : str) : bool :=
  match s with [] => false | _ :: _ => true end.

(** Truth value of [Optional[str]]: [None] and the empty string are false. *)
Definition truthy_opt (o : option str) : bool :=
  match o with None => false | Some s => truthy s end.

(** [str.isspace] on one code point, which is also the class [\s] of [re] on
    [str] patterns and what [str.strip()] removes. *)
Definition isspace (c : N) : bool :=
  ((0x09 <=? c) && (c <=? 0x0D)) || ((0x1C <=? c) && (c <=? 0x20))
  || (c =? 0x85) || (c =? 0xA0) || (c =? 0x1680)
  || ((0x2000 <=? c) && (c <=? 0x200A))
  || (c =? 0x2028) || (c =? 0x2029) || (c =? 0x202F) || (c =? 0x205F)
  || (c =? 0x3000).

Fixpoint lstrip (s : str) : str :=
  match s with
  | c :: s' => if isspace c then lstrip s' else s
  | [] => []
  end.

Definition rstrip (s : str) : str := rev (lstrip (rev s)).

(** [s.strip()] *)
Definition strip (s : str) : str := rstrip (lstrip s).

(** [sep.join(xs)] *)
Fixpoint join (sep : str) (xs : list str) : str :=
  match xs with
  | [] => []
  | [x] => x
  | x :: xs' => x ++ sep ++ join sep xs'
  end.

(** The ASCII letters and digits. *)
Definition ascii_alnum (c : N) : bool :=
  ((0x30 <=? c) && (c <=? 0x39)) || ((0x41 <=? c) && (c <=? 0x5A))
  || ((0x61 <=? c) && (c <=? 0x7A)).

(** The code-point tables of the interpreter's Unicode database outside ASCII:
    [str.isdecimal] and [str.isalnum]. On ASCII both are fixed below. *)
Class Unicode := {
  uni_decimal : N -> bool;
  uni_alnum : N -> bool
}.

Section Classes.
Context {U : Unicode}.

(** [\d] on a [str] pattern: [str.isdecimal]. *)
Definition isdecimal (c : N) : bool :=
  if c <? 128 then (0x30 <=? c) && (c <=? 0x39) else uni_decimal c.

(** [str.isalnum] on one code point. *)
Definition isalnum (c : N) : bool :=
  if c <? 128 then ascii_alnum c else uni_alnum c.

(** [\w] on a [str] pattern: alphanumeric or the underscore. *)
Definition isword (c : N) : bool := isalnum c || (c =? 0x5F).

End Classes.

(** ** Regular expressions of [pii_scan] *)

Inductive category := Word | Digit | Space.

(** One member of a character set. *)
Inductive cset_item :=
| Literal (c : N)
| Category (k : category).

(** The syntax tree [re] builds for a pattern, for the constructs the three
    patterns use. [Repeat lo hi greedy r] is [r{lo,hi}], [hi = None] for no
    upper bound, [greedy = false] for the lazy form with a trailing [?]. *)
Inductive regex :=
| Chars (items : list cset_item)
| Boundary
| Seq (r1 r2 : regex)
| Repeat (lo : nat) (hi : option nat) (greedy : bool) (body : regex).

Declare Scope regex_scope.
Delimit Scope regex_scope with re.
Bind Scope regex_scope with regex.
Infix "·" := Seq (at level 60, right associativity) : regex_scope.

(** [c], [\c] *)
Definition Lit (a : ascii) : regex := Chars [Literal (chr a)].
(** [\w], [\d], [\s] outside a set *)
Definition Cat (k : category) : regex := Chars [Category k].
(** [r?], [r+], [r*?], [r{n}], [r{n,}], [r{n,m}] *)
Definition Opt (r : regex) : regex := Repeat 0 (Some 1%nat) true r.
Definition Plus (r : regex) : regex := Repeat 1 None true r.
Definition LazyStar (r : regex) : regex := Repeat 0 None false r.
Definition Times (n : nat) (r : regex) : regex := Repeat n (Some n) true r.
Definition AtLeast (n : nat) (r : regex) : regex := Repeat n None true r.
Definition Between (n m : nat) (r : regex) : regex := Repeat n (Some m) true r.

(** *** Reading a pattern

    The part of the pattern syntax of [re] that the three patterns are written
    in: literals, the escapes [\b \w \d \s] and escaped punctuation, sets of
    single members, groups [(?:...)], and the quantifiers [? + * {n} {n,}
    {n,m}] with their lazy forms. Anything else is refused. *)

(** The member [\c] of a set, or the atom [\c] but for [\b]: a class for
    [w], [d] and [s], the character itself unless it is an ASCII letter or
    digit. *)
Definition escape (c : N) : option cset_item :=
  if c =? chr "w" then Some (Category Word)
  else if c =? chr "d" then Some (Category Digit)
  else if c =? chr "s" then Some (Category Space)
  else if negb (ascii_alnum c) then Some (Literal c)
  else None.

(** The members of a set up to its closing bracket. A [-] is a member when it
    stands first or last; ranges and a leading [^] are refused. *)
Fixpoint parse_set (first : bool) (s : str) : option (list cset_item * str) :=
  match s with
  | [] => None
  | c :: s' =>
      if c =? chr "]" then (if first then None else Some ([], s'))
      else if (c =? chr "^") && first then None
      else if c =? chr "\" then
        match s' with
        | e :: s'' =>
            it ← escape e;
            '(items, rest) ← parse_set false s'';
            Some (it :: items, rest)
        | [] => None
        end
      else if (c =? chr "-") && negb first
              && negb (match s' with x :: _ => x =? chr "]" | [] => false end)
      then None
      else if match s' with
              | x :: y :: _ => (x =? chr "-") && negb (y =? chr "]")
              | _ => false
              end
      then None
      else
        '(items, rest) ← parse_set false s';
        Some (Literal c :: items, rest)
  end.

(** A decimal number at the head of [s], if there is one. *)
Fixpoint parse_number (acc : option nat) (s : str) : option nat * str :=
  match s with
  | c :: s' =>
      if (0x30 <=? c) && (c <=? 0x39)
      then parse_number (Some (10 * default 0 acc + N.to_nat (c - 0x30))%nat) s'
      else (acc, s)
  | [] => (acc, s)
  end.

(** The bounds of the quantifier at the head of [s], if there is one. *)
Definition parse_bounds (s : str) : option (nat * option nat * str) :=
  match s with
  | c :: s' =>
      if c =? chr "?" then Some (0, Some 1, s')%nat
      else if c =? chr "+" then Some (1, None, s')%nat
      else if c =? chr "*" then Some (0, None, s')%nat
      else if c =? chr "{" then
        match parse_number None s' with
        | (Some lo, x :: rest) =>
            if x =? chr "}" then Some (lo, Some lo, rest)
            else if x =? chr "," then
              match parse_number None rest with
              | (hi, y :: rest') =>
                  if (y =? chr "}") && (lo <=? default lo hi)%nat
                  then Some (lo, hi, rest') else None
              | _ => None
              end
            else None
        | _ => None
        end
      else None
  | [] => None
  end.

(** The atom [r] with the quantifier that follows it, if any. *)
Definition quantified (r : regex) (s : str) : regex * str :=
  match parse_bounds s with
  | Some (lo, hi, rest) =>
      match rest with
      | c :: rest' =>
          if c =? chr "?" then (Repeat lo hi false r, rest')
          else (Repeat lo hi true r, rest)
      | [] => (Repeat lo hi true r, rest)
      end
  | None => (r, s)
  end.

Fixpoint sequence (first : regex) (items : list regex) : regex :=
  match items with
  | [] => first
  | r :: items' => Seq first (sequence r items')
  end.

Definition is_meta (c : N) : bool :=
  existsb (fun a => c =? chr a)
    ["."; "^"; "$"; "|"; "?"; "+"; "*"; "{"; "}"; "]"]%char.

(** The items of a sequence up to the end of the pattern or the closing
    parenthesis of the group they stand in. *)
Fixpoint parse_items (fuel : nat) (s : str) : option (list regex * str) :=
  match fuel with
  | O => None
  | S fuel' =>
      match s with
      | [] => Some ([], [])
      | c :: s' =>
          if c =? chr ")" then Some ([], s)
          else
            '(atom, rest) ←
              (if c =? chr "(" then
                 match s' with
                 | q :: colon :: s'' =>
                     if (q =? chr "?") && (colon =? chr ":") then
                       '(items, rest) ← parse_items fuel' s'';
                       match items, rest with
                       | r :: items', close :: rest' =>
                           if close =? chr ")"
                           then Some (sequence r items', rest')
                           else None
                       | _, _ => None
                       end
                     else None
                 | _ => None
                 end
               else if c =? chr "[" then
                 '(items, rest) ← parse_set true s';
                 Some (Chars items, rest)
               else if c =? chr "\" then
                 match s' with
                 | e :: s'' =>
                     if e =? chr "b" then Some (Boundary, s'')
                     else it ← escape e; Some (Chars [it], s'')
                 | [] => None
                 end
               else if is_meta c then None
               else Some (Chars [Literal c], s'));
            let '(r, rest) := quantified atom rest in
            '(items, rest') ← parse_items fuel' rest;
            Some (r :: items, rest')
      end
  end.

(** [re.compile(pattern)], as far as the syntax above goes. *)
Definition re_compile (pattern : str) : option regex :=
  '(items, rest) ← parse_items (S (length pattern)) pattern;
  match items, rest with
  | r :: items', [] => Some (sequence r items')
  | _, _ => None
  end.

Section Matcher.
Context {U : Unicode}.

Definition item_mem (it : cset_item) (c : N) : bool :=
  match it with
  | Literal x => c =? x
  | Category Word => isword c
  | Category Digit => isdecimal c
  | Category Space => isspace c
  end.

Definition cset_mem (items : list cset_item) (c : N) : bool :=
  existsb (fun it => item_mem it c) items.

Definition word_at (o : option N) : bool :=
  match o with Some c => isword c | None => false end.

(** [\b] between the previous character and the rest of the text: exactly one
    side is a word character; outside the text counts as not a word. *)
Definition at_boundary (prev : option N) (s : str) : bool :=
  xorb (word_at prev) (word_at (head s)).

(** A continuation is asked whether the rest of the pattern matches from a
    position: the character before it and the text from it on. A matcher tries
    a pattern at a position and asks a continuation at each end it finds. *)
Definition cont : Type := option N -> str -> bool.
Definition matcher : Type := option N -> str -> cont -> bool.

(** The repetition loop of the engine over the matcher [mb] of the body.
    [must n] runs [n] compulsory rounds and goes on with [after]; [may n] runs
    up to [n] further rounds, a greedy loop trying one more round before the
    continuation [k], a lazy one the continuation first. *)
Fixpoint must (mb : matcher) (after : cont) (n : nat) (p : option N) (t : str)
    : bool :=
  match n with
  | O => after p t
  | S n' => mb p t (fun p' t' => must mb after n' p' t')
  end.

Fixpoint may (mb : matcher) (greedy : bool) (k : cont) (n : nat)
    (p : option N) (t : str) : bool :=
  match n with
  | O => k p t
  | S n' =>
      if greedy
      then if mb p t (fun p' t' => may mb greedy k n' p' t') then true else k p t
      else if k p t then true else mb p t (fun p' t' => may mb greedy k n' p' t')
  end.

(** The optional rounds of [r{lo,hi}] at text [t]. Without an upper bound at
    most [length t] rounds can follow: each round consumes a character. *)
Definition rounds (lo : nat) (hi : option nat) (t : str) : nat :=
  match hi with
  | Some h => (h - lo)%nat
  | None => length t
  end.

(** The backtracking matcher: [m r prev s k] tries [r] at the position whose
    previous character is [prev] and whose remaining text is [s], and calls the
    continuation [k] at each position where [r] can end, in the order the
    engine tries them, until [k] accepts. *)
Fixpoint m (r : regex) (prev : option N) (s : str) (k : cont) {struct r}
    : bool :=
  match r with
  | Chars items =>
      match s with
      | c :: s' => if cset_mem items c then k (Some c) s' else false
      | [] => false
      end
  | Boundary => if at_boundary prev s then k prev s else false
  | Seq r1 r2 => m r1 prev s (fun p t => m r2 p t k)
  | Repeat lo hi greedy body =>
      must (m body)
        (fun p t => may (m body) greedy k (rounds lo hi t) p t) lo prev s
  end.

Fixpoint search_from (r : regex) (prev : option N) (s : str) : bool :=
  if m r prev s (fun _ _ => true) then true
  else match s with
       | c :: s' => search_from r (Some c) s'
       | [] => false
       end.

(** [bool(re.search(r, text))] *)
Definition re_search (r : regex) (text : str) : bool := search_from r None text.

(** [[\w\.-]], [[-.\s]] and [[ -]] *)
Definition word_dot_dash : regex :=
  Chars [Category Word; Literal (chr "."); Literal (chr "-")].
Definition separator : regex :=
  Chars [Literal (chr "-"); Literal (chr "."); Category Space].
Definition blank_dash : regex := Chars [Literal (chr " "); Literal (chr "-")].

(** [\b[\w\.-]+@[\w\.-]+\.\w{2,}\b] *)
Definition email_re : regex :=
  (Boundary · Plus word_dot_dash · Lit "@" · Plus word_dot_dash · Lit "."
   · AtLeast 2 (Cat Word) · Boundary)%re.

(** [\b(?:\+?\d{1,3}[-.\s]?)?(?:\(?\d{3}\)?[-.\s]?)?\d{3}[-.\s]?\d{4}\b] *)
Definition phone_re : regex :=
  (Boundary
   · Opt (Opt (Lit "+") · Between 1 3 (Cat Digit) · Opt separator)
   · Opt (Opt (Lit "(") · Times 3 (Cat Digit) · Opt (Lit ")") · Opt separator)
   · Times 3 (Cat Digit) · Opt separator · Times 4 (Cat Digit) · Boundary)%re.

(** [\b(?:\d[ -]*?){13,16}\b] *)
Definition card_re : regex :=
  (Boundary · Between 13 16 (Cat Digit · LazyStar blank_dash) · Boundary)%re.

(** [pii_scan], the same function in both front-ends
    (askBetterAgentCLI.py 47-54, askBetterAgentST.py 58-65). *)
Definition pii_scan (text : str) : list str :=
  let flags := [] in
  let flags := if re_search email_re text then flags ++ [lit "email"] else flags in
  let flags := if re_search phone_re text then flags ++ [lit "phone"] else flags in
  let flags := if re_search card_re text then flags ++ [lit "card-ish"] else flags in
  flags.

End Matcher.

(** A database that knows no decimal or alphanumeric code point outside ASCII. *)
Definition ascii_only : Unicode :=
  {| uni_decimal := fun _ => false; uni_alnum := fun _ => false |}.

(** ** The pydantic models *)

(** [Literal["coding","data","business","other"]] *)
Inductive Domain := coding | data | business | other_domain.
(** [Literal["how-to","debug","design","fact","other"]] *)
Inductive QuestionType := how_to | debug | design | fact | other_type.

Record ClassificationModel := {
  domain : Domain;
  type : QuestionType
}.

Record ScoresModel := {
  clarity : Z;
  specificity : Z;
  answerability : Z;
  safety : Z
}.

Record RewritesModel := {
  minimal : str;
  ideal : str
}.

Record QuestionReview := {
  original_question : str;
  missing_info : list str;
  assumptions : list str;
  followups : list str;
  flags : list str;
  classification : ClassificationModel;
  scores : ScoresModel;
  rewrites : RewritesModel
}.

(** The candidate the generation backend hands to validation: the JSON object
    with each property of its declared JSON type. A list property may be
    absent ([None]); the other properties are present. *)
Record RawClassification := { raw_domain : str; raw_type : str }.
Record RawScores := {
  raw_clarity : Z; raw_specificity : Z; raw_answerability : Z; raw_safety : Z
}.
Record RawRewrites := { raw_minimal : str; raw_ideal : str }.
Record RawReview := {
  raw_original_question : str;
  raw_missing_info : option (list str);
  raw_assumptions : option (list str);
  raw_followups : option (list str);
  raw_flags : option (list str);
  raw_classification : RawClassification;
  raw_scores : RawScores;
  raw_rewrites : RawRewrites
}.

(** The two front-ends declare the same models, except that the three lists
    are required in the CLI and default to the empty list in the UI. *)
Inductive frontend := CLI | ST.

(** [int = Field(ge=lo, le=hi)]: the value is kept as it is or rejected. *)
Definition Field_ge_le (lo hi v : Z) : option Z :=
  if ((lo <=? v) && (v <=? hi))%Z then Some v else None.

(** [str = Field(max_length=n)]: [len] counts code points. *)
Definition Field_max_length (n : nat) (v : str) : option str :=
  if (length v <=? n)%nat then Some v else None.

(** [list[str]] without default: required. *)
Definition Field_required (v : option (list str)) : option (list str) := v.

(** [list[str] = Field(default_factory=list)] *)
Definition Field_default_list (v : option (list str)) : option (list str) :=
  Some (default [] v).

Definition Domain_validate (v : str) : option Domain :=
  if decide (v = lit "coding") then Some coding
  else if decide (v = lit "data") then Some data
  else if decide (v = lit "business") then Some business
  else if decide (v = lit "other") then Some other_domain
  else None.

Definition QuestionType_validate (v : str) : option QuestionType :=
  if decide (v = lit "how-to") then Some how_to
  else if decide (v = lit "debug") then Some debug
  else if decide (v = lit "design") then Some design
  else if decide (v = lit "fact") then Some fact
  else if decide (v = lit "other") then Some other_type
  else None.

Definition ClassificationModel_validate (raw : RawClassification)
    : option ClassificationModel :=
  d ← Domain_validate (raw_domain raw);
  t ← QuestionType_validate (raw_type raw);
  Some {| domain := d; type := t |}.

Definition ScoresModel_validate (raw : RawScores) : option ScoresModel :=
  c ← Field_ge_le 0 10 (raw_clarity raw);
  s ← Field_ge_le 0 10 (raw_specificity raw);
  a ← Field_ge_le 0 10 (raw_answerability raw);
  f ← Field_ge_le 0 10 (raw_safety raw);
  Some {| clarity := c; specificity := s; answerability := a; safety := f |}.

Definition RewritesModel_validate (raw : RawRewrites) : option RewritesModel :=
  mi ← Field_max_length 280 (raw_minimal raw);
  id ← Field_max_length 280 (raw_ideal raw);
  Some {| minimal := mi; ideal := id |}.

Definition list_field (fe : frontend) (v : option (list str)) : option (list str) :=
  match fe with
  | CLI => Field_required v
  | ST => Field_default_list v
  end.

Definition QuestionReview_validate (fe : frontend) (raw : RawReview)
    : option QuestionReview :=
  mi ← list_field fe (raw_missing_info raw);
  asm ← list_field fe (raw_assumptions raw);
  fu ← list_field fe (raw_followups raw);
  fl ← Field_default_list (raw_flags raw);
  cl ← ClassificationModel_validate (raw_classification raw);
  sc ← ScoresModel_validate (raw_scores raw);
  rw ← RewritesModel_validate (raw_rewrites raw);
  Some {| original_question := raw_original_question raw;
          missing_info := mi; assumptions := asm; followups := fu; flags := fl;
          classification := cl; scores := sc; rewrites := rw |}.

(** [out.model_copy(update={"original_question": q})] *)
Definition model_copy_original_question (out : QuestionReview) (q : str)
    : QuestionReview :=
  {| original_question := q;
     missing_info := missing_info out; assumptions := assumptions out;
     followups := followups out; flags := flags out;
     classification := classification out; scores := scores out;
     rewrites := rewrites out |}.

(** The ground-truth step, written inline in both front-ends
    (askBetterAgentCLI.py 80-81, askBetterAgentST.py 153-154). *)
Definition enforce_ground_truth (out : QuestionReview) (user_question : str)
    : QuestionReview :=
  if decide (strip (original_question out) ≠ strip user_question)
  then model_copy_original_question out user_question
  else out.

(** ** The scripts *)

(** How a script ends other than by reaching its last line. *)
Inductive exn :=
| ValueError (msg : str)
| SystemExit (code : Z)
| EOFError                 (* [input()] at the end of the standard input *)
| AgentError               (* [Runner.run] raised *)
| StopException            (* [st.stop()] *)
| StreamlitSecretNotFoundError.  (* [st.secrets] read without a secrets file *)

(** What the UI draws for a record (askBetterAgentST.py 159-244): the three
    lists are sliced with [[:6]], [[:6]] and [[:5]], the last entry is the raw
    record of the expander. *)
Record view := {
  view_domain : Domain;
  view_type : QuestionType;
  view_flags : list str;
  view_scores : list (str * Z);
  view_missing_info : list str;
  view_assumptions : list str;
  view_followups : list str;
  view_minimal : str * nat;
  view_ideal : str * nat;
  view_raw : QuestionReview
}.

(** The observable steps of a run. *)
Inductive event :=
| SetClient (api_key : str)          (* [set_default_openai_client(AsyncOpenAI(api_key=..))] *)
| Input (prompt : str)               (* [input(prompt)] *)
| Print (text : str)                 (* [print(text)] *)
| PrintJson (out : QuestionReview)   (* [print(out.model_dump_json(indent=2))] *)
| Run (question : str)               (* [Runner.run(agent, question)]: the generation request *)
| StError (msg : str)                (* [st.error(msg)] *)
| StWarning (msg : str)              (* [st.warning(msg)] *)
| StRender (v : view).

Definition is_Run (e : event) : bool :=
  match e with Run _ => true | _ => false end.

Record world := {
  stdin : list str;        (* the lines still to be read *)
  trace : list event       (* the steps taken, oldest first *)
}.

(** A script: it changes the world and returns a value or raises. *)
Definition M (A : Type) : Type := world -> world * (exn + A).

#[global] Instance M_ret : MRet M := fun A a w => (w, inr a).
#[global] Instance M_bind : MBind M := fun A B f ma w =>
  match ma w with
  | (w', inr a) => f a w'
  | (w', inl e) => (w', inl e)
  end.

Definition raise {A} (e : exn) : M A := fun w => (w, inl e).

(** An expression that leaves the world alone: its value, or what it raises. *)
Definition lift {A} (r : exn + A) : M A := fun w => (w, r).

Definition emit (e : event) : M unit := fun w =>
  ({| stdin := stdin w; trace := trace w ++ [e] |}, inr tt).

(** [input(prompt)]: the next line without its newline, [EOFError] if none. *)
Definition input (prompt : str) : M str := fun w =>
  let w' := {| stdin := tail (stdin w); trace := trace w ++ [Input prompt] |} in
  match stdin w with
  | l :: _ => (w', inr l)
  | [] => (w', inl EOFError)
  end.

Definition print (text : str) : M unit := emit (Print text).

(** The exit status of the process. *)
Definition exit_status {A} (r : exn + A) : Z :=
  match r with
  | inr _ => 0
  | inl (SystemExit code) => code
  | inl _ => 1
  end.

(** The generation backend behind [Runner.run]: for a question it produces a
    candidate record or fails. *)
Definition backend : Type := str -> option RawReview.

(** [Runner.run(agent, q).final_output] with [output_type=QuestionReview]: the
    candidate is validated against the model; a run without a valid record
    raises. *)
Definition Runner_run (fe : frontend) (b : backend) (q : str) : M QuestionReview :=
  emit (Run q);;
  match b q with
  | None => raise AgentError
  | Some raw =>
      match QuestionReview_validate fe raw with
      | Some out => mret out
      | None => raise AgentError
      end
  end.

(** [load_dotenv()]: variables of the .env file are added to the environment,
    those already set are kept. *)
Definition load_dotenv (dotenv environ : gmap string str) : gmap string str :=
  environ ∪ dotenv.

(** [os.getenv(key)] *)
Definition os_getenv (environ : gmap string str) (key : string) : option str :=
  environ !! key.

(** [st.secrets.get(key, dflt)]. [secrets] is what the secrets files hold,
    [None] when there is no secrets.toml: reading [st.secrets] then raises,
    also through [get], which catches [KeyError] only. With a file, [get]
    gives the value of the key and [dflt] when the file has no such key. *)
Definition secrets_get (secrets : option (gmap string str)) (key : string)
    (dflt : option str) : exn + option str :=
  match secrets with
  | None => inl StreamlitSecretNotFoundError
  | Some file =>
      inr (match file !! key with
           | Some v => Some v
           | None => dflt
           end)
  end.

Module cli.

(** [main] (askBetterAgentCLI.py 75-83) *)
Definition main (b : backend) (user_question : str) : M unit :=
  out ← Runner_run CLI b user_question;
  let out := enforce_ground_truth out user_question in
  emit (PrintJson out).

(** The module-level [api_key] (13), read after [load_dotenv()] (11). *)
Definition api_key (dotenv environ : gmap string str) : option str :=
  os_getenv (load_dotenv dotenv environ) "OPENAI_API_KEY".

(** The module body from top to bottom, run as a script: the credential check
    (13-18) and the [__main__] block (85-93). [argv] is [sys.argv]. *)
Definition script (dotenv environ : gmap string str) (argv : list str)
    (b : backend) : M unit :=
  let api_key := api_key dotenv environ in
  (if negb (truthy_opt api_key)
   then raise (ValueError (lit "OPENAI_API_KEY is not set"))
   else mret tt);;
  emit (SetClient (default [] api_key));;
  let user_q := strip (join (lit " ") (tail argv)) in
  user_q ← (if negb (truthy user_q)
            then l ← input (lit "Enter your question: "); mret (strip l)
            else mret user_q);
  (if negb (truthy user_q)
   then print (lit "No question provided. Exiting.");; raise (SystemExit 1)
   else mret tt);;
  main b user_q.

End cli.

Module st.

Definition render (out : QuestionReview) : view :=
  {| view_domain := domain (classification out);
     view_type := type (classification out);
     view_flags := flags out;
     view_scores :=
       [(lit "Clarity", clarity (scores out));
        (lit "Specificity", specificity (scores out));
        (lit "Answerability", answerability (scores out));
        (lit "Safety", safety (scores out))];
     view_missing_info := take 6 (missing_info out);
     view_assumptions := take 6 (assumptions out);
     view_followups := take 5 (followups out);
     view_minimal := (minimal (rewrites out), length (minimal (rewrites out)));
     view_ideal := (ideal (rewrites out), length (ideal (rewrites out)));
     view_raw := out |}.

(** The right-hand side of the module-level [OPENAI_API_KEY] (15), evaluated
    after [load_dotenv()] (14): the secret if the secrets file has one, the
    environment variable if the file has none, an exception if there is no
    secrets file. *)
Definition OPENAI_API_KEY (dotenv environ : gmap string str)
    (secrets : option (gmap string str)) : exn + option str :=
  secrets_get secrets "OPENAI_API_KEY"
    (os_getenv (load_dotenv dotenv environ) "OPENAI_API_KEY").

(** One run of the page script (askBetterAgentST.py) in a fresh process: the
    credential check (14-18), the client (21-26), and the handler of the
    Analyze button (143-244). [secrets] is what the secrets files hold, if
    there is one, [user_q] what the text area returns, [run_btn] what the
    button returns. *)
Definition script (dotenv environ : gmap string str)
    (secrets : option (gmap string str))
    (user_q : str) (run_btn : bool) (b : backend) : M unit :=
  OPENAI_API_KEY ← lift (OPENAI_API_KEY dotenv environ secrets);
  (if negb (truthy_opt OPENAI_API_KEY)
   then emit (StError (lit "OPENAI_API_KEY is not set. Add it to .streamlit/secrets.toml or your environment."));;
        raise StopException
   else mret tt);;
  emit (SetClient (default [] OPENAI_API_KEY));;
  if run_btn then
    (if negb (truthy (strip user_q))
     then emit (StWarning (lit "Please enter a question."));; raise StopException
     else mret tt);;
    out ← Runner_run ST b user_q;
    let out := enforce_ground_truth out user_q in
    emit (StRender (render out))
  else mret tt.

End st.

(** The world a process starts in. *)
Definition start (lines : list str) : world := {| stdin := lines; trace := [] |}.

(** * Notions the statements use *)

(** ** The scanner *)

Section Alike.
Context {U : Unicode}.
(** [R] relates characters that no set of the pattern tells apart. *)
Variable R : N -> N -> Prop.

Fixpoint respects (r : regex) : Prop :=
  match r with
  | Chars items => forall c c', R c c' -> cset_mem items c = cset_mem items c'
  | Boundary => True
  | Seq r1 r2 => respects r1 /\ respects r2
  | Repeat _ _ _ body => respects body
  end.

(** Two continuations, or two matchers, that agree on alike positions. *)
Definition alike_k (k k' : cont) : Prop :=
  forall p p' t t', option_Forall2 R p p' -> Forall2 R t t' -> k p t = k' p' t'.

Definition alike_m (mb mb' : matcher) : Prop :=
  forall p p' t t' k k',
    option_Forall2 R p p' -> Forall2 R t t' -> alike_k k k' ->
    mb p t k = mb' p' t' k'.

End Alike.

Definition ascii_digit (c : N) : Prop := 0x30 <= c <= 0x39.

(** Two ASCII digits. *)
Definition digits (c c' : N) : Prop := ascii_digit c /\ ascii_digit c'.

(** A pattern that takes at least one character whenever it matches. *)
Fixpoint consuming (r : regex) : bool :=
  match r with
  | Chars _ => true
  | Boundary => false
  | Seq r1 r2 => consuming r1 || consuming r2
  | Repeat lo _ _ body => negb (Nat.eqb lo 0) && consuming body
  end.

(** Every repetition without upper bound has a consuming body. *)
Fixpoint loops_consume (r : regex) : bool :=
  match r with
  | Chars _ | Boundary => true
  | Seq r1 r2 => loops_consume r1 && loops_consume r2
  | Repeat _ hi _ body =>
      loops_consume body
      && match hi with Some _ => true | None => consuming body end
  end.

(** [mb] asks its continuation only about texts no longer than its own. *)
Definition local (mb : matcher) : Prop :=
  forall p t (k k' : cont),
    (forall p' t', (length t' <= length t)%nat -> k p' t' = k' p' t') ->
    mb p t k = mb p t k'.

(** [mb] asks its continuation only about shorter texts. *)
Definition strict (mb : matcher) : Prop :=
  forall p t (k k' : cont),
    (forall p' t', (length t' < length t)%nat -> k p' t' = k' p' t') ->
    mb p t k = mb p t k'.

(** [mb] accepts only where its continuation does. *)
Definition failing (mb : matcher) : Prop :=
  forall p t, mb p t (fun _ _ => false) = false.

(** ** The models *)

Definition in_range (v : Z) : Prop := (0 <= v <= 10)%Z.

Definition scores_in_range (raw : RawScores) : Prop :=
  in_range (raw_clarity raw) /\ in_range (raw_specificity raw)
  /\ in_range (raw_answerability raw) /\ in_range (raw_safety raw).

(** The record [raw] with other lists. *)
Definition raw_with_lists (raw : RawReview) (mi asm fu : list str) : RawReview :=
  {| raw_original_question := raw_original_question raw;
     raw_missing_info := Some mi; raw_assumptions := Some asm;
     raw_followups := Some fu; raw_flags := raw_flags raw;
     raw_classification := raw_classification raw;
     raw_scores := raw_scores raw; raw_rewrites := raw_rewrites raw |}.

Definition with_lists (out : QuestionReview) (mi asm fu : list str)
    : QuestionReview :=
  {| original_question := original_question out;
     missing_info := mi; assumptions := asm; followups := fu;
     flags := flags out; classification := classification out;
     scores := scores out; rewrites := rewrites out |}.

(** The length bound of a rewrite counts code points, not bytes. *)
Definition utf8_length (c : N) : nat :=
  if c <? 0x80 then 1 else if c <? 0x800 then 2
  else if c <? 0x10000 then 3 else 4.

Definition utf8_size (s : str) : nat := sum_list (utf8_length <$> s).

(** ** The scripts *)

(** No generation request among the steps of a run. *)
Definition no_request (w : world) : Prop :=
  Forall (fun e => is_Run e = false) (trace w).

(** ** Sample data *)

(** A candidate with seven, seven and six entries in the three lists and
    nothing else to object to. *)
Definition long_lists : RawReview :=
  {| raw_original_question := lit "Fix this SQL?";
     raw_missing_info := Some (replicate 7 (lit "which database"));
     raw_assumptions := Some (replicate 7 (lit "PostgreSQL"));
     raw_followups := Some (replicate 6 (lit "What is the error?"));
     raw_flags := Some [];
     raw_classification := {| raw_domain := lit "coding"; raw_type := lit "debug" |};
     raw_scores := {| raw_clarity := 3; raw_specificity := 2;
                      raw_answerability := 2; raw_safety := 10 |};
     raw_rewrites := {| raw_minimal := lit "Fix this SQL query?";
                        raw_ideal := lit "Why does this SQL query fail?" |} |}.

(** What validation makes of [long_lists]. *)
Definition long_lists_out : QuestionReview :=
  {| original_question := lit "Fix this SQL?";
     missing_info := replicate 7 (lit "which database");
     assumptions := replicate 7 (lit "PostgreSQL");
     followups := replicate 6 (lit "What is the error?");
     flags := [];
     classification := {| domain := coding; type := debug |};
     scores := {| clarity := 3; specificity := 2; answerability := 2;
                  safety := 10 |};
     rewrites := {| minimal := lit "Fix this SQL query?";
                    ideal := lit "Why does this SQL query fail?" |} |}.

(** A backend that echoes a paraphrase of the question. *)
Definition paraphrased : RawReview :=
  {| raw_original_question := lit "How to index JSONB?";
     raw_missing_info := Some [lit "Postgres version"];
     raw_assumptions := Some [];
     raw_followups := Some [lit "Which operators do the queries use?"];
     raw_flags := Some [];
     raw_classification := {| raw_domain := lit "data"; raw_type := lit "how-to" |};
     raw_scores := {| raw_clarity := 7; raw_specificity := 5;
                      raw_answerability := 6; raw_safety := 10 |};
     raw_rewrites := {| raw_minimal := lit "How do I index a JSONB column?";
                        raw_ideal := lit "How do I index a JSONB column in Postgres 16?" |} |}.

Definition paraphrased_out : QuestionReview :=
  {| original_question := lit "How to index JSONB?";
     missing_info := [lit "Postgres version"];
     assumptions := [];
     followups := [lit "Which operators do the queries use?"];
     flags := [];
     classification := {| domain := data; type := how_to |};
     scores := {| clarity := 7; specificity := 5; answerability := 6;
                  safety := 10 |};
     rewrites := {| minimal := lit "How do I index a JSONB column?";
                    ideal := lit "How do I index a JSONB column in Postgres 16?" |} |}.

(** An environment that holds a credential. *)
Definition with_key : gmap string str :=
  {[ "OPENAI_API_KEY"%string := lit "sk-test" ]}.

(** ** What a pattern matches *)

(** The character before the position reached from one whose previous
    character is [p] by reading [w]. *)
Definition after (p : option N) (w : str) : option N :=
  match last w with
  | Some c => Some c
  | None => p
  end.

(** [n] matches of [M] in a row: [M p w t] says that [M] matches the text [w]
    when [p] is the character before it and [t] the text behind it. *)
Inductive times (M : option N -> str -> str -> Prop)
    : nat -> option N -> str -> str -> Prop :=
| times_O p t : times M O p [] t
| times_S n p w1 w2 t :
    M p w1 (w2 ++ t) -> times M n (after p w1) w2 t ->
    times M (S n) p (w1 ++ w2) t.

Section Matches.
Context {U : Unicode}.

(** [matches r p w t]: the pattern [r] matches the text [w] between the
    previous character [p] and the following text [t]. *)
Fixpoint matches (r : regex) (p : option N) (w t : str) : Prop :=
  match r with
  | Chars items => exists c, w = [c] /\ cset_mem items c = true
  | Boundary => w = [] /\ at_boundary p t = true
  | Seq r1 r2 =>
      exists w1 w2, w = w1 ++ w2 /\ matches r1 p w1 (w2 ++ t)
                    /\ matches r2 (after p w1) w2 t
  | Repeat lo hi _ body =>
      exists n, (lo <= n)%nat
                /\ (forall h, hi = Some h -> n <= lo + (h - lo))%nat
                /\ times (matches body) n p w t
  end.

(** [r] matches somewhere in [text]. *)
Definition occurs (r : regex) (text : str) : Prop :=
  exists pre w post, text = pre ++ w ++ post /\ matches r (last pre) w post.

End Matches.

(** A matcher finds only matches of [M] ... *)
Definition sound (M : option N -> str -> str -> Prop) (mb : matcher) : Prop :=
  forall p t (k : cont), mb p t k = true ->
    exists w t', t = w ++ t' /\ M p w t' /\ k (after p w) t' = true.

(** ... and every match of [M] that the continuation accepts. *)
Definition complete (M : option N -> str -> str -> Prop) (mb : matcher) : Prop :=
  forall p w t' (k : cont), M p w t' -> k (after p w) t' = true ->
    mb p (w ++ t') k = true.

(** The number of characters of [w] with the property [f]. *)
Fixpoint count (f : N -> bool) (w : str) : nat :=
  match w with
  | [] => O
  | c :: w' => ((if f c then 1 else 0) + count f w')%nat
  end.

(** The least number of characters with a property in any match of [r], when
    [sure items] says that every member of the set [items] has it. *)
Fixpoint min_count (sure : list cset_item -> bool) (r : regex) : nat :=
  match r with
  | Chars items => if sure items then 1 else 0
  | Boundary => 0
  | Seq r1 r2 => min_count sure r1 + min_count sure r2
  | Repeat lo _ _ body => lo * min_count sure body
  end.

(** The greatest such number, [None] if there is none, when [maybe items]
    says that some member of [items] may have the property. *)
Fixpoint max_count (maybe : list cset_item -> bool) (r : regex) : option nat :=
  match r with
  | Chars items => Some (if maybe items then 1 else 0)%nat
  | Boundary => Some O
  | Seq r1 r2 =>
      a ← max_count maybe r1; b ← max_count maybe r2; Some (a + b)%nat
  | Repeat lo hi _ body =>
      b ← max_count maybe body;
      match b, hi with
      | O, _ => Some O
      | _, Some h => Some ((lo + (h - lo)) * b)%nat
      | _, None => None
      end
  end.

Definition is_ascii_digit (c : N) : bool := (0x30 <=? c) && (c <=? 0x39).

Section Sets.
Context {U : Unicode}.

(** Every member of the set is a decimal digit. *)
Definition all_decimal (items : list cset_item) : bool :=
  forallb (fun it => match it with
                     | Category Digit => true
                     | Literal x => isdecimal x
                     | _ => false
                     end) items.

(** Every member of the set is the character [c0]. *)
Definition only (c0 : N) (items : list cset_item) : bool :=
  forallb (fun it => match it with
                     | Literal x => x =? c0
                     | _ => false
                     end) items.

(** Some member of the set may be an ASCII digit. *)
Definition some_ascii_digit (items : list cset_item) : bool :=
  existsb (fun it => match it with
                     | Literal x => is_ascii_digit x
                     | Category Space => false
                     | _ => true
                     end) items.

End Sets.

(** Digits written in groups: each digit with what follows it up to the next
    digit. *)
Definition grouped (chunks : list (N * str)) : str :=
  concat ((fun ch : N * str => ch.1 :: ch.2) <$> chunks).

(** An ASCII digit followed by blanks and hyphens only. *)
Definition card_chunk (ch : N * str) : Prop :=
  ascii_digit ch.1 /\ Forall (fun c => c = chr " " \/ c = chr "-") ch.2.

Section Names.
Context {U : Unicode}.

(** A character of the set [[\w\.-]]. *)
Definition name_char (c : N) : bool :=
  isword c || (c =? chr ".") || (c =? chr "-").

(** A character of the set [[-.\s]]. *)
Definition separator_char (c : N) : bool :=
  (c =? chr "-") || (c =? chr ".") || isspace c.

End Names.

(** The pattern ends with [\b]. *)
Fixpoint ends_with_boundary (r : regex) : bool :=
  match r with
  | Boundary => true
  | Seq _ r2 => ends_with_boundary r2
  | _ => false
  end.

(** White space only. *)
Definition blank (s : str) : Prop := Forall (fun c => isspace c = true) s.

(** The lists a front-end insists on. *)
Definition lists_present (fe : frontend) (raw : RawReview) : Prop :=
  match fe with
  | CLI => is_Some (raw_missing_info raw) /\ is_Some (raw_assumptions raw)
           /\ is_Some (raw_followups raw)
  | ST => True
  end.

Definition is_output (e : event) : bool :=
  match e with PrintJson _ | StRender _ => true | _ => false end.

(** The scores, as the UI lists them, lie in 0..10. *)
Definition scores_ok (sc : ScoresModel) : Prop :=
  in_range (clarity sc) /\ in_range (specificity sc)
  /\ in_range (answerability sc) /\ in_range (safety sc).

Definition is_Input (e : event) : bool :=
  match e with Input _ => true | _ => false end.

(** The digits of "4111 1111 1111 1111" with the blank behind each group. *)
Definition sample_card : list (N * str) :=
  [(chr "4", []); (chr "1", []); (chr "1", []); (chr "1", lit " ");
   (chr "1", []); (chr "1", []); (chr "1", []); (chr "1", lit " ");
   (chr "1", []); (chr "1", []); (chr "1", []); (chr "1", lit " ");
   (chr "1", []); (chr "1", []); (chr "1", []); (chr "1", [])].

(** The patterns this holds for: between two [\b], with no empty match. *)
Definition delimited (r : regex) : Prop :=
  exists r', r = Seq Boundary r' /\ ends_with_boundary r' = true
             /\ (1 <= min_count (fun _ => true) r')%nat.

(** * Properties *)

(** ** The scanner *)

Section Scanner.
Context {U : Unicode}.

(** The three syntax trees are what the patterns of the source read as. *)
Lemma patterns_compile :
  re_compile (lit "\b[\w\.-]+@[\w\.-]+\.\w{2,}\b") = Some email_re
  /\ re_compile
       (lit "\b(?:\+?\d{1,3}[-.\s]?)?(?:\(?\d{3}\)?[-.\s]?)?\d{3}[-.\s]?\d{4}\b")
     = Some phone_re
  /\ re_compile (lit "\b(?:\d[ -]*?){13,16}\b") = Some card_re.
Proof. repeat split; vm_compute; reflexivity. Qed.

Lemma pii_scan_cases (text : str) :
  pii_scan text =
    (if re_search email_re text then [lit "email"] else [])
    ++ (if re_search phone_re text then [lit "phone"] else [])
    ++ (if re_search card_re text then [lit "card-ish"] else []).
Proof.
  unfold pii_scan.
  destruct (re_search email_re text), (re_search phone_re text),
    (re_search card_re text); reflexivity.
Qed.

(** *** The matcher looks at a character only through the sets of the pattern *)

Section AlikeFacts.
(** [R] relates characters that no set of the pattern and no [\b] tells
    apart. *)
Variable R : N -> N -> Prop.
Hypothesis R_word : forall c c', R c c' -> isword c = isword c'.

Lemma at_boundary_alike p p' t t' :
  option_Forall2 R p p' -> Forall2 R t t' -> at_boundary p t = at_boundary p' t'.
Proof.
  intros Hp Ht. unfold at_boundary. f_equal.
  - destruct Hp; simpl; auto.
  - destruct Ht; simpl; auto.
Qed.

Lemma must_alike mb mb' after after' n :
  alike_m R mb mb' -> alike_k R after after' ->
  alike_k R (must mb after n) (must mb' after' n).
Proof.
  intros Hm Ha. induction n as [|n IH]; intros p p' t t' Hp Ht; simpl.
  - apply Ha; assumption.
  - apply Hm; assumption.
Qed.

Lemma may_alike mb mb' greedy k k' n :
  alike_m R mb mb' -> alike_k R k k' ->
  alike_k R (may mb greedy k n) (may mb' greedy k' n).
Proof.
  intros Hm Hk. induction n as [|n IH]; intros p p' t t' Hp Ht; simpl.
  - apply Hk; assumption.
  - assert (E : mb p t (fun q u => may mb greedy k n q u)
               = mb' p' t' (fun q u => may mb' greedy k' n q u))
      by (apply Hm; auto).
    rewrite E, (Hk p p' t t' Hp Ht). reflexivity.
Qed.

Lemma m_alike (r : regex) : respects R r -> alike_m R (m r) (m r).
Proof.
  induction r as [items| |r1 IH1 r2 IH2|lo hi greedy body IH];
    simpl; intros Hr p p' t t' k k' Hp Ht Hk.
  - destruct Ht as [|c c' t t' Hc Ht]; [reflexivity|].
    rewrite (Hr c c' Hc). rewrite (Hk (Some c) (Some c') t t'); auto.
    constructor; assumption.
  - rewrite (at_boundary_alike p p' t t' Hp Ht), (Hk p p' t t' Hp Ht).
    reflexivity.
  - destruct Hr as [Hr1 Hr2]. apply IH1; auto.
    intros q q' u u' Hq Hu. apply IH2; auto.
  - apply must_alike; auto.
    intros q q' u u' Hq Hu.
    replace (rounds lo hi u') with (rounds lo hi u).
    + apply may_alike; auto.
    + unfold rounds. destruct hi; [reflexivity|].
      apply (Forall2_length _ _ _ Hu).
Qed.

Lemma search_from_alike (r : regex) p p' t t' :
  respects R r -> option_Forall2 R p p' -> Forall2 R t t' ->
  search_from r p t = search_from r p' t'.
Proof.
  intros Hr Hp Ht. revert p p' Hp.
  induction Ht as [|c c' t t' Hc Ht IH]; intros p p' Hp; simpl.
  - rewrite (m_alike r Hr p p' [] [] (fun _ _ => true) (fun _ _ => true));
      auto. intros ? ? ? ? _ _. reflexivity.
  - rewrite (m_alike r Hr p p' (c :: t) (c' :: t')
               (fun _ _ => true) (fun _ _ => true)); auto.
    + rewrite (IH (Some c) (Some c')); [reflexivity|]. constructor; assumption.
    + intros ? ? ? ? _ _. reflexivity.
Qed.

Lemma re_search_alike (r : regex) t t' :
  respects R r -> Forall2 R t t' -> re_search r t = re_search r t'.
Proof.
  intros Hr Ht. apply search_from_alike; auto. constructor.
Qed.

End AlikeFacts.

(** *** The bound on the rounds of an unbounded repetition *)

Lemma strict_local mb : strict mb -> local mb.
Proof. intros Hs p t k k' H. apply Hs. intros p' t' Hl. apply H. lia. Qed.

Lemma must_local mb (after after' : cont) n p t :
  local mb ->
  (forall p' t', (length t' <= length t)%nat -> after p' t' = after' p' t') ->
  must mb after n p t = must mb after' n p t.
Proof.
  intros Hm. revert p t. induction n as [|n IH]; intros p t H; simpl.
  - apply H. lia.
  - apply Hm. intros p' t' Hl. apply IH. intros p'' t'' Hl'. apply H. lia.
Qed.

Lemma must_strict mb (after after' : cont) n p t :
  strict mb ->
  (forall p' t', (length t' < length t)%nat -> after p' t' = after' p' t') ->
  must mb after (S n) p t = must mb after' (S n) p t.
Proof.
  intros Hm H. simpl. apply Hm. intros p' t' Hl.
  apply must_local; [apply strict_local; exact Hm|].
  intros p'' t'' Hl'. apply H. lia.
Qed.

Lemma may_local mb greedy (k k' : cont) n p t :
  local mb ->
  (forall p' t', (length t' <= length t)%nat -> k p' t' = k' p' t') ->
  may mb greedy k n p t = may mb greedy k' n p t.
Proof.
  intros Hm. revert p t. induction n as [|n IH]; intros p t H; simpl.
  - apply H. lia.
  - assert (E : mb p t (fun q u => may mb greedy k n q u)
               = mb p t (fun q u => may mb greedy k' n q u)).
    { apply Hm. intros p' t' Hl. apply IH. intros p'' t'' Hl'. apply H. lia. }
    rewrite E, (H p t); [reflexivity|lia].
Qed.

Lemma must_failing mb n p t :
  local mb -> failing mb -> must mb (fun _ _ => false) n p t = false.
Proof.
  intros Hl Hf. revert p t.
  induction n as [|n IH]; intros p t; simpl; [reflexivity|].
  transitivity (mb p t (fun _ _ => false)); [|apply Hf].
  apply Hl. intros p' t' _. apply IH.
Qed.

Lemma may_failing mb greedy n p t :
  local mb -> failing mb -> may mb greedy (fun _ _ => false) n p t = false.
Proof.
  intros Hl Hf. revert p t.
  induction n as [|n IH]; intros p t; simpl; [reflexivity|].
  assert (E : mb p t (fun q u => may mb greedy (fun _ _ => false) n q u) = false).
  { transitivity (mb p t (fun _ _ => false)); [|apply Hf].
    apply Hl. intros p' t' _. apply IH. }
  rewrite E. destruct greedy; reflexivity.
Qed.

Lemma m_local (r : regex) : local (m r).
Proof.
  induction r as [items| |r1 IH1 r2 IH2|lo hi greedy body IH];
    intros p t k k' H; simpl.
  - destruct t as [|c t]; [reflexivity|].
    rewrite (H (Some c) t); [reflexivity|simpl; lia].
  - rewrite (H p t); [reflexivity|lia].
  - apply IH1. intros p' t' Hl. apply IH2. intros p'' t'' Hl'. apply H. lia.
  - apply must_local; [exact IH|]. intros p' t' Hl.
    apply may_local; [exact IH|]. intros p'' t'' Hl'. apply H. lia.
Qed.

Lemma m_strict (r : regex) : consuming r = true -> strict (m r).
Proof.
  induction r as [items| |r1 IH1 r2 IH2|lo hi greedy body IH];
    simpl; intros Hc p t k k' H.
  - destruct t as [|c t]; [reflexivity|].
    rewrite (H (Some c) t); [reflexivity|simpl; lia].
  - discriminate Hc.
  - destruct (consuming r1) eqn:E1.
    + apply IH1; [reflexivity|]. intros p' t' Hl.
      apply m_local. intros p'' t'' Hl'. apply H. lia.
    + simpl in Hc. apply m_local. intros p' t' Hl.
      apply IH2; [exact Hc|]. intros p'' t'' Hl'. apply H. lia.
  - apply andb_prop in Hc as [Hlo Hb]. destruct lo as [|lo]; [discriminate Hlo|].
    apply must_strict; [apply IH; exact Hb|]. intros p' t' Hl.
    apply may_local; [apply m_local|]. intros p'' t'' Hl'. apply H. lia.
Qed.

Lemma m_failing (r : regex) : failing (m r).
Proof.
  induction r as [items| |r1 IH1 r2 IH2|lo hi greedy body IH]; intros p t; simpl.
  - destruct t as [|c t]; [reflexivity|]. destruct (cset_mem items c); reflexivity.
  - destruct (at_boundary p t); reflexivity.
  - transitivity (m r1 p t (fun _ _ => false)); [|apply IH1].
    apply m_local. intros p' t' _. apply IH2.
  - transitivity (must (m body) (fun _ _ => false) lo p t);
      [|apply must_failing; [apply m_local|exact IH]].
    apply must_local; [apply m_local|]. intros p' t' _.
    apply may_failing; [apply m_local|exact IH].
Qed.

(** Once the optional rounds are as many as the characters left, more rounds
    change nothing. *)
Lemma may_enough mb greedy (k : cont) n n' p t :
  strict mb -> failing mb ->
  (length t <= n)%nat -> (length t <= n')%nat ->
  may mb greedy k n p t = may mb greedy k n' p t.
Proof.
  intros Hs Hf. revert n' p t.
  assert (Hnil : forall j q, may mb greedy k (S j) q [] = k q []).
  { intros j q. simpl.
    assert (E : mb q [] (fun q' u => may mb greedy k j q' u) = false).
    { transitivity (mb q [] (fun _ _ => false)); [|apply Hf].
      apply Hs. simpl. intros ? ? Hl. lia. }
    rewrite E. destruct greedy, (k q []); reflexivity. }
  induction n as [|n IH]; intros n' p t Hn Hn'.
  - destruct t; [|simpl in Hn; lia].
    destruct n'; [reflexivity|]. rewrite Hnil. reflexivity.
  - destruct n' as [|n'].
    + destruct t; [|simpl in Hn'; lia]. rewrite Hnil. reflexivity.
    + simpl.
      assert (E : mb p t (fun q u => may mb greedy k n q u)
                 = mb p t (fun q u => may mb greedy k n' q u)).
      { apply Hs. intros p' t' Hl. apply IH; lia. }
      rewrite E. reflexivity.
Qed.

(** The loop [body{lo,}] with a consuming body gives the same answer for
    every bound on its optional rounds from [rounds lo None t] on, so also
    for the engine's own bound. *)
Lemma unbounded_rounds (body : regex) (lo : nat) greedy (k : cont) n p t :
  consuming body = true -> (length t <= n)%nat ->
  may (m body) greedy k n p t
  = may (m body) greedy k (rounds lo None t) p t.
Proof.
  intros Hc Hn. apply may_enough; auto using m_strict, m_failing.
Qed.

Lemma patterns_loops_consume :
  loops_consume email_re = true /\ loops_consume phone_re = true
  /\ loops_consume card_re = true.
Proof. repeat split. Qed.

(** *** Runs of ASCII digits *)

Lemma ascii_digit_cases (c : N) :
  ascii_digit c ->
  c = 0x30 \/ c = 0x31 \/ c = 0x32 \/ c = 0x33 \/ c = 0x34 \/ c = 0x35
  \/ c = 0x36 \/ c = 0x37 \/ c = 0x38 \/ c = 0x39.
Proof. unfold ascii_digit. lia. Qed.

Ltac by_digit H :=
  apply ascii_digit_cases in H;
  repeat (destruct H as [H|H]; [subst; try reflexivity|]); subst; try reflexivity.

Lemma digits_word c c' : digits c c' -> isword c = isword c'.
Proof. intros [H H']. by_digit H; by_digit H'. Qed.

Lemma digits_cset (items : list cset_item) :
  (forall c, ascii_digit c -> cset_mem items c = cset_mem items 0x30) ->
  forall c c', digits c c' -> cset_mem items c = cset_mem items c'.
Proof. intros E c c' [H H']. rewrite (E c H), (E c' H'). reflexivity. Qed.

Ltac respects_digits :=
  cbv [respects email_re phone_re card_re Plus Opt Lit Cat LazyStar Times
       AtLeast Between word_dot_dash separator blank_dash];
  repeat match goal with
         | |- _ /\ _ => split
         | |- True => exact I
         | |- forall c c', digits c c' -> _ =>
             apply digits_cset; let c := fresh "c" in let H := fresh "H" in
             intros c H; by_digit H
         end.

Lemma email_re_digits : respects digits email_re.
Proof. respects_digits. Qed.

Lemma phone_re_digits : respects digits phone_re.
Proof. respects_digits. Qed.

Lemma card_re_digits : respects digits card_re.
Proof. respects_digits. Qed.

Lemma digits_replicate (text : str) :
  Forall ascii_digit text -> Forall2 digits text (replicate (length text) 0x30).
Proof.
  induction 1 as [|c text Hc _ IH]; simpl; constructor; auto.
  split; [assumption|]. unfold ascii_digit. lia.
Qed.

(** The scanner does not tell two runs of ASCII digits of one length apart. *)
Lemma pii_scan_digits (text : str) :
  Forall ascii_digit text ->
  pii_scan text = pii_scan (replicate (length text) 0x30).
Proof.
  intros H. apply digits_replicate in H.
  rewrite !pii_scan_cases.
  rewrite (re_search_alike digits digits_word email_re _ _ email_re_digits H).
  rewrite (re_search_alike digits digits_word phone_re _ _ phone_re_digits H).
  rewrite (re_search_alike digits digits_word card_re _ _ card_re_digits H).
  reflexivity.
Qed.

Ltac by_decide :=
  match goal with
  | |- ?P => apply (bool_decide_unpack P); vm_compute; exact I
  end.

(** C5. The scanner applied to the text "contact me at jane.doe@acme.com"
    returns exactly the list with the one tag "email": "email" is in the
    result, "phone" and "card-ish" are not. *)
Theorem pii_scan_email_example :
  pii_scan (lit "contact me at jane.doe@acme.com") = [lit "email"]
  /\ (lit "email" ∈ pii_scan (lit "contact me at jane.doe@acme.com"))
  /\ (lit "phone" ∉ pii_scan (lit "contact me at jane.doe@acme.com"))
  /\ (lit "card-ish" ∉ pii_scan (lit "contact me at jane.doe@acme.com")).
Proof.
  assert (E : pii_scan (lit "contact me at jane.doe@acme.com") = [lit "email"])
    by (vm_compute; reflexivity).
  rewrite E. split; [reflexivity|]. split; [apply list_elem_of_singleton; reflexivity|].
  split; intros H%list_elem_of_singleton; discriminate H.
Qed.

(** C6. The scanner applied to the text "card 4111 1111 1111 1111" returns a
    list that contains "card-ish": the sixteen digits in four groups separated
    by spaces are matched by the card pattern. *)
Theorem pii_scan_card_example :
  (lit "card-ish" ∈ pii_scan (lit "card 4111 1111 1111 1111"))
  /\ re_search card_re (lit "card 4111 1111 1111 1111") = true.
Proof.
  assert (E : pii_scan (lit "card 4111 1111 1111 1111")
              = [lit "phone"; lit "card-ish"]) by (vm_compute; reflexivity).
  rewrite E. split; [|vm_compute; reflexivity].
  apply list_elem_of_further, list_elem_of_here.
Qed.

(** C9. For every text the scanner returns a list without repetition whose
    elements are among "email", "phone" and "card-ish" and stand in that
    order; it has at most three elements and never holds "unsafe" or
    "vague". *)
Theorem pii_scan_vocabulary (text : str) :
  sublist (pii_scan text) [lit "email"; lit "phone"; lit "card-ish"]
  /\ NoDup (pii_scan text)
  /\ (length (pii_scan text) <= 3)%nat
  /\ (forall tag, tag ∈ pii_scan text ->
        tag = lit "email" \/ tag = lit "phone" \/ tag = lit "card-ish")
  /\ (lit "unsafe" ∉ pii_scan text)
  /\ (lit "vague" ∉ pii_scan text).
Proof.
  rewrite pii_scan_cases.
  destruct (re_search email_re text), (re_search phone_re text),
    (re_search card_re text); simpl.
  all: split; [repeat constructor|].
  all: split; [by_decide|].
  all: split; [lia|].
  all: split; [intros tag Htag; repeat (apply elem_of_cons in Htag as [->|Htag]; auto);
               apply elem_of_nil in Htag; contradiction|].
  all: split; by_decide.
Qed.

(** C10. For a text of exactly seventeen ASCII decimal digits the scanner
    returns the empty list: the card pattern needs a word boundary after at
    most sixteen digits, and there is none inside an unbroken run. *)
Theorem pii_scan_seventeen_digits (text : str) :
  length text = 17%nat -> Forall ascii_digit text ->
  pii_scan text = []
  /\ (lit "card-ish" ∉ pii_scan text)
  /\ re_search card_re text = false.
Proof.
  intros Hlen Hdig.
  assert (Hc : re_search card_re text = false).
  { rewrite (re_search_alike digits digits_word card_re _ _ card_re_digits
               (digits_replicate text Hdig)), Hlen.
    vm_compute. reflexivity. }
  rewrite (pii_scan_digits text Hdig), Hlen.
  assert (E : pii_scan (replicate 17 0x30) = []) by (vm_compute; reflexivity).
  rewrite E. split; [reflexivity|]. split; [apply not_elem_of_nil|exact Hc].
Qed.

(** The scanner applied to "call 555-123-4567 now" returns the one tag
    "phone". *)
Theorem pii_scan_phone_example :
  pii_scan (lit "call 555-123-4567 now") = [lit "phone"]
  /\ (lit "phone" ∈ pii_scan (lit "call 555-123-4567 now")).
Proof.
  assert (E : pii_scan (lit "call 555-123-4567 now") = [lit "phone"])
    by (vm_compute; reflexivity).
  rewrite E. split; [reflexivity|apply list_elem_of_here].
Qed.

(** The scanner applied to "no sensitive data here" returns no tag. *)
Theorem pii_scan_clean_example :
  pii_scan (lit "no sensitive data here") = [].
Proof. vm_compute. reflexivity. Qed.

(** A text of exactly sixteen ASCII digits is reported as "card-ish". *)
Lemma pii_scan_sixteen_digits (text : str) :
  length text = 16%nat -> Forall ascii_digit text ->
  lit "card-ish" ∈ pii_scan text.
Proof.
  intros Hlen Hdig. rewrite (pii_scan_digits text Hdig), Hlen.
  assert (E : pii_scan (replicate 16 0x30) = [lit "card-ish"])
    by (vm_compute; reflexivity).
  rewrite E. apply list_elem_of_here.
Qed.

End Scanner.

Lemma pii_scan_sixteen_digits_witness :
  lit "card-ish" ∈ @pii_scan ascii_only (lit "4111111111111111").
Proof.
  apply (@pii_scan_sixteen_digits ascii_only (lit "4111111111111111")).
  - reflexivity.
  - repeat constructor; vm_compute; discriminate.
Defined.

Lemma pii_scan_seventeen_digits_witness :
  @pii_scan ascii_only (lit "12345678901234567") = []
  /\ (lit "card-ish" ∉ @pii_scan ascii_only (lit "12345678901234567"))
  /\ @re_search ascii_only card_re (lit "12345678901234567") = false.
Proof.
  apply (@pii_scan_seventeen_digits ascii_only (lit "12345678901234567")).
  - reflexivity.
  - repeat constructor; vm_compute; discriminate.
Defined.

(** ** The models *)

Lemma Field_ge_le_Some lo hi v w :
  Field_ge_le lo hi v = Some w <-> (lo <= v <= hi)%Z /\ w = v.
Proof.
  unfold Field_ge_le.
  destruct (Z.leb_spec lo v), (Z.leb_spec v hi); simpl; split; intros E;
    try discriminate; try (injection E as <-; split; [lia|reflexivity]);
    destruct E as [E ->]; try reflexivity; lia.
Qed.

Lemma Field_ge_le_None lo hi v :
  Field_ge_le lo hi v = None <-> ~ (lo <= v <= hi)%Z.
Proof.
  unfold Field_ge_le.
  destruct (Z.leb_spec lo v), (Z.leb_spec v hi); simpl; split; intros E;
    try discriminate; try reflexivity; lia.
Qed.

Lemma Field_max_length_Some n v w :
  Field_max_length n v = Some w <-> (length v <= n)%nat /\ w = v.
Proof.
  unfold Field_max_length.
  destruct (Nat.leb_spec (length v) n); split; intros E;
    try discriminate; try (injection E as <-; split; [lia|reflexivity]);
    destruct E as [E ->]; try reflexivity; lia.
Qed.

Lemma Field_max_length_None n v :
  Field_max_length n v = None <-> (n < length v)%nat.
Proof.
  unfold Field_max_length.
  destruct (Nat.leb_spec (length v) n); split; intros E;
    try discriminate; try reflexivity; lia.
Qed.

Lemma ScoresModel_validate_Some (raw : RawScores) (sc : ScoresModel) :
  ScoresModel_validate raw = Some sc <->
  scores_in_range raw
  /\ sc = {| clarity := raw_clarity raw; specificity := raw_specificity raw;
             answerability := raw_answerability raw; safety := raw_safety raw |}.
Proof.
  unfold ScoresModel_validate, scores_in_range, in_range.
  destruct (Field_ge_le 0 10 (raw_clarity raw)) as [c|] eqn:Ec; simpl.
  2:{ apply Field_ge_le_None in Ec. split; [discriminate|tauto]. }
  destruct (Field_ge_le 0 10 (raw_specificity raw)) as [s|] eqn:Es; simpl.
  2:{ apply Field_ge_le_None in Es. split; [discriminate|tauto]. }
  destruct (Field_ge_le 0 10 (raw_answerability raw)) as [a|] eqn:Ea; simpl.
  2:{ apply Field_ge_le_None in Ea. split; [discriminate|tauto]. }
  destruct (Field_ge_le 0 10 (raw_safety raw)) as [f|] eqn:Ef; simpl.
  2:{ apply Field_ge_le_None in Ef. split; [discriminate|tauto]. }
  apply Field_ge_le_Some in Ec as [? ->], Es as [? ->], Ea as [? ->], Ef as [? ->].
  split; [intros [= <-]; auto|intros [_ ->]; reflexivity].
Qed.

Lemma RewritesModel_validate_Some (raw : RawRewrites) (rw : RewritesModel) :
  RewritesModel_validate raw = Some rw <->
  (length (raw_minimal raw) <= 280)%nat /\ (length (raw_ideal raw) <= 280)%nat
  /\ rw = {| minimal := raw_minimal raw; ideal := raw_ideal raw |}.
Proof.
  unfold RewritesModel_validate.
  destruct (Field_max_length 280 (raw_minimal raw)) as [mi|] eqn:Em; simpl.
  2:{ apply Field_max_length_None in Em. split; [discriminate|lia]. }
  destruct (Field_max_length 280 (raw_ideal raw)) as [id|] eqn:Ei; simpl.
  2:{ apply Field_max_length_None in Ei. split; [discriminate|lia]. }
  apply Field_max_length_Some in Em as [? ->], Ei as [? ->].
  split; [intros [= <-]; auto|intros (_ & _ & ->); reflexivity].
Qed.

(** What a validated record is made of. *)
Lemma QuestionReview_validate_Some (fe : frontend) (raw : RawReview)
    (out : QuestionReview) :
  QuestionReview_validate fe raw = Some out <->
  exists mi asm fu cl sc rw,
    list_field fe (raw_missing_info raw) = Some mi
    /\ list_field fe (raw_assumptions raw) = Some asm
    /\ list_field fe (raw_followups raw) = Some fu
    /\ ClassificationModel_validate (raw_classification raw) = Some cl
    /\ ScoresModel_validate (raw_scores raw) = Some sc
    /\ RewritesModel_validate (raw_rewrites raw) = Some rw
    /\ out = {| original_question := raw_original_question raw;
                missing_info := mi; assumptions := asm; followups := fu;
                flags := default [] (raw_flags raw);
                classification := cl; scores := sc; rewrites := rw |}.
Proof.
  unfold QuestionReview_validate, Field_default_list.
  destruct (list_field fe (raw_missing_info raw)) as [mi|]; simpl;
    [|split; [discriminate|intros (?&?&?&?&?&?&[=]&_)]].
  destruct (list_field fe (raw_assumptions raw)) as [asm|]; simpl;
    [|split; [discriminate|intros (?&?&?&?&?&?&_&[=]&_)]].
  destruct (list_field fe (raw_followups raw)) as [fu|]; simpl;
    [|split; [discriminate|intros (?&?&?&?&?&?&_&_&[=]&_)]].
  destruct (ClassificationModel_validate (raw_classification raw)) as [cl|]; simpl;
    [|split; [discriminate|intros (?&?&?&?&?&?&_&_&_&[=]&_)]].
  destruct (ScoresModel_validate (raw_scores raw)) as [sc|]; simpl;
    [|split; [discriminate|intros (?&?&?&?&?&?&_&_&_&_&[=]&_)]].
  destruct (RewritesModel_validate (raw_rewrites raw)) as [rw|]; simpl;
    [|split; [discriminate|intros (?&?&?&?&?&?&_&_&_&_&_&[=]&_)]].
  split.
  - intros [= <-]. exists mi, asm, fu, cl, sc, rw. repeat split.
  - intros (?&?&?&?&?&?&[= <-]&[= <-]&[= <-]&[= <-]&[= <-]&[= <-]&->).
    reflexivity.
Qed.

(** C2. Validation of the four scores succeeds exactly when each of them lies
    in the closed range 0..10; a validated model stores each value as it was
    supplied; scores out of range make the validation of the sub-record and of
    the whole record fail, no adjusted record is produced. *)
Theorem ScoresModel_validate_range (raw : RawScores) :
  (is_Some (ScoresModel_validate raw) <-> scores_in_range raw)
  /\ (forall sc, ScoresModel_validate raw = Some sc ->
        clarity sc = raw_clarity raw /\ specificity sc = raw_specificity raw
        /\ answerability sc = raw_answerability raw /\ safety sc = raw_safety raw)
  /\ (~ scores_in_range raw ->
        ScoresModel_validate raw = None
        /\ forall fe r, raw_scores r = raw -> QuestionReview_validate fe r = None).
Proof.
  split; [|split].
  - split.
    + intros [sc Hsc]. apply ScoresModel_validate_Some in Hsc. tauto.
    + intros Hr. eexists. apply ScoresModel_validate_Some. split; [exact Hr|reflexivity].
  - intros sc Hsc. apply ScoresModel_validate_Some in Hsc as [_ ->]. simpl. auto.
  - intros Hn.
    assert (E : ScoresModel_validate raw = None).
    { destruct (ScoresModel_validate raw) as [sc|] eqn:Hsc; [|reflexivity].
      apply ScoresModel_validate_Some in Hsc. tauto. }
    split; [exact E|]. intros fe r <-.
    destruct (QuestionReview_validate fe r) as [out|] eqn:Ho; [|reflexivity].
    apply QuestionReview_validate_Some in Ho as (?&?&?&?&sc&?&_&_&_&_&Hsc&_).
    rewrite E in Hsc. discriminate Hsc.
Qed.

Lemma list_field_Some (fe : frontend) (l : list str) :
  list_field fe (Some l) = Some l.
Proof. destruct fe; reflexivity. Qed.

(** C3, as stated, fails: a record with seven missing-info entries, seven
    assumptions and six follow-ups validates in both front-ends, and the CLI
    prints it with all its entries. *)
Lemma list_caps_counterexample :
  QuestionReview_validate CLI long_lists = Some long_lists_out
  /\ QuestionReview_validate ST long_lists = Some long_lists_out
  /\ ~ (length (missing_info long_lists_out) <= 6)%nat
  /\ ~ (length (assumptions long_lists_out) <= 6)%nat
  /\ ~ (length (followups long_lists_out) <= 5)%nat
  /\ cli.main (fun _ => Some long_lists) (lit "Fix this SQL?") (start [])
     = ({| stdin := [];
           trace := [Run (lit "Fix this SQL?"); PrintJson long_lists_out] |},
        inr tt).
Proof.
  split; [vm_compute; reflexivity|].
  split; [vm_compute; reflexivity|].
  repeat split; try (simpl; lia).
Qed.

(** C3, amended. Validation does not look at the lengths of [missing_info],
    [assumptions] and [followups]: a record that validates still validates
    with any other three lists, which it then carries unchanged. The caps are
    applied where the UI draws a record: it lists the first 6, 6 and 5
    entries. *)
Theorem list_lengths_not_validated (fe : frontend) (raw : RawReview)
    (out : QuestionReview) :
  QuestionReview_validate fe raw = Some out ->
  (forall mi asm fu,
     QuestionReview_validate fe (raw_with_lists raw mi asm fu)
     = Some (with_lists out mi asm fu))
  /\ view_missing_info (st.render out) = take 6 (missing_info out)
  /\ view_assumptions (st.render out) = take 6 (assumptions out)
  /\ view_followups (st.render out) = take 5 (followups out)
  /\ (length (view_missing_info (st.render out)) <= 6)%nat
  /\ (length (view_assumptions (st.render out)) <= 6)%nat
  /\ (length (view_followups (st.render out)) <= 5)%nat.
Proof.
  intros Ho. split.
  - intros mi asm fu.
    apply QuestionReview_validate_Some in Ho
      as (mi0&asm0&fu0&cl&sc&rw&_&_&_&Hcl&Hsc&Hrw&->).
    apply QuestionReview_validate_Some.
    exists mi, asm, fu, cl, sc, rw. simpl.
    rewrite !list_field_Some. repeat split; assumption.
  - simpl. rewrite !length_take. repeat split; lia.
Qed.

Lemma list_lengths_not_validated_witness :
  (forall mi asm fu,
     QuestionReview_validate ST (raw_with_lists long_lists mi asm fu)
     = Some (with_lists long_lists_out mi asm fu))
  /\ view_missing_info (st.render long_lists_out)
     = take 6 (missing_info long_lists_out)
  /\ view_assumptions (st.render long_lists_out)
     = take 6 (assumptions long_lists_out)
  /\ view_followups (st.render long_lists_out)
     = take 5 (followups long_lists_out)
  /\ (length (view_missing_info (st.render long_lists_out)) <= 6)%nat
  /\ (length (view_assumptions (st.render long_lists_out)) <= 6)%nat
  /\ (length (view_followups (st.render long_lists_out)) <= 5)%nat.
Proof.
  apply (list_lengths_not_validated ST long_lists long_lists_out).
  vm_compute. reflexivity.
Defined.

(** C7. In a record that validates, each rewrite has at most 280 code points
    and is the string that was supplied; a candidate with a longer rewrite
    does not validate, and the run that obtained it raises instead of
    returning a record. *)
Theorem rewrites_bounded (fe : frontend) (raw : RawReview) :
  (forall out, QuestionReview_validate fe raw = Some out ->
     (length (minimal (rewrites out)) <= 280)%nat
     /\ (length (ideal (rewrites out)) <= 280)%nat
     /\ minimal (rewrites out) = raw_minimal (raw_rewrites raw)
     /\ ideal (rewrites out) = raw_ideal (raw_rewrites raw))
  /\ ((280 < length (raw_minimal (raw_rewrites raw)))%nat
      \/ (280 < length (raw_ideal (raw_rewrites raw)))%nat ->
      QuestionReview_validate fe raw = None
      /\ forall (b : backend) q w, b q = Some raw ->
           Runner_run fe b q w
           = ({| stdin := stdin w; trace := trace w ++ [Run q] |}, inl AgentError)).
Proof.
  split.
  - intros out Ho.
    apply QuestionReview_validate_Some in Ho as (?&?&?&?&?&rw&_&_&_&_&_&Hrw&->).
    apply RewritesModel_validate_Some in Hrw as (?&?&->). simpl. auto.
  - intros Hlong.
    assert (E : QuestionReview_validate fe raw = None).
    { destruct (QuestionReview_validate fe raw) as [out|] eqn:Ho; [|reflexivity].
      apply QuestionReview_validate_Some in Ho as (?&?&?&?&?&rw&_&_&_&_&_&Hrw&_).
      apply RewritesModel_validate_Some in Hrw as (?&?&_). lia. }
    split; [exact E|]. intros b q w Hb.
    unfold Runner_run, mbind, M_bind, emit, raise. simpl. rewrite Hb, E.
    reflexivity.
Qed.

(** ** The scripts *)

Lemma truthy_false (s : str) : truthy s = false <-> s = [].
Proof. destruct s; simpl; split; congruence. Qed.

Lemma truthy_true (s : str) : truthy s = true <-> s <> [].
Proof. destruct s; simpl; split; congruence. Qed.

Lemma truthy_opt_true (o : option str) :
  truthy_opt o = true <-> exists key, o = Some key /\ truthy key = true.
Proof.
  destruct o as [key|]; simpl; split.
  - intros H. exists key. auto.
  - intros (? & [= <-] & H). exact H.
  - discriminate.
  - intros (? & [=] & _).
Qed.

Ltac run :=
  unfold cli.script, cli.main, st.script, Runner_run, print, input, emit,
    raise, lift, start, mbind, mret, M_bind, M_ret; simpl.

(** The ground-truth step on its own. *)
Lemma enforce_ground_truth_spec (out : QuestionReview) (q : str) :
  strip (original_question (enforce_ground_truth out q)) = strip q
  /\ (strip (original_question out) <> strip q ->
      enforce_ground_truth out q = model_copy_original_question out q
      /\ original_question (enforce_ground_truth out q) = q)
  /\ (strip (original_question out) = strip q ->
      enforce_ground_truth out q = out).
Proof.
  unfold enforce_ground_truth.
  destruct (decide (strip (original_question out) ≠ strip q)) as [Hne|He].
  - split; [reflexivity|]. split; [auto|]. intros He. contradiction.
  - apply dec_stable in He. split; [exact He|].
    split; [intros Hne; contradiction|reflexivity].
Qed.

(** X6. The ground-truth step changes nothing but [original_question]. *)
Lemma enforce_ground_truth_frame (out : QuestionReview) (q : str) :
  let final := enforce_ground_truth out q in
  missing_info final = missing_info out /\ assumptions final = assumptions out
  /\ followups final = followups out /\ flags final = flags out
  /\ classification final = classification out /\ scores final = scores out
  /\ rewrites final = rewrites out.
Proof.
  unfold enforce_ground_truth. destruct (decide _); simpl; repeat split.
Qed.

Lemma cli_main_run (b : backend) (q : str) (raw : RawReview)
    (out : QuestionReview) (w : world) :
  b q = Some raw -> QuestionReview_validate CLI raw = Some out ->
  cli.main b q w
  = ({| stdin := stdin w;
        trace := trace w ++ [Run q; PrintJson (enforce_ground_truth out q)] |},
     inr tt).
Proof.
  intros Hb Hv. run. rewrite Hb, Hv. simpl. rewrite <- app_assoc. reflexivity.
Qed.

Lemma st_script_run (dotenv environ : gmap string str)
    (secrets : option (gmap string str)) (key q : str)
    (b : backend) (raw : RawReview) (out : QuestionReview) (lines : list str) :
  st.OPENAI_API_KEY dotenv environ secrets = inr (Some key) ->
  truthy key = true -> truthy (strip q) = true ->
  b q = Some raw -> QuestionReview_validate ST raw = Some out ->
  st.script dotenv environ secrets q true b (start lines)
  = ({| stdin := lines;
        trace := [SetClient key; Run q;
                  StRender (st.render (enforce_ground_truth out q))] |},
     inr tt).
Proof.
  intros Hk Ht Hq Hb Hv. run. rewrite Hk. simpl. rewrite Ht, Hq. simpl.
  rewrite Hb, Hv. reflexivity.
Qed.

(** C1. Ground truth: when the backend answers the question [q] with a record
    that validates, the record the CLI prints and the record the UI draws is
    [final] with [final.original_question.strip() = q.strip()]; if the echoed
    question differs from [q] after trimming both, [final] is the record with
    the field replaced by [q] itself, not trimmed; otherwise [final] is the
    record as it came. *)
Theorem ground_truth_enforced (fe : frontend) (b : backend) (q : str)
    (raw : RawReview) (out : QuestionReview) :
  b q = Some raw -> QuestionReview_validate fe raw = Some out ->
  exists final,
    final = enforce_ground_truth out q
    /\ match fe with
       | CLI =>
           forall w, cli.main b q w
                     = ({| stdin := stdin w;
                           trace := trace w ++ [Run q; PrintJson final] |}, inr tt)
       | ST =>
           forall dotenv environ secrets key lines,
             st.OPENAI_API_KEY dotenv environ secrets = inr (Some key) ->
             truthy key = true -> truthy (strip q) = true ->
             st.script dotenv environ secrets q true b (start lines)
             = ({| stdin := lines;
                   trace := [SetClient key; Run q; StRender (st.render final)] |},
                inr tt)
       end
    /\ strip (original_question final) = strip q
    /\ (strip (original_question out) <> strip q ->
        final = model_copy_original_question out q /\ original_question final = q)
    /\ (strip (original_question out) = strip q -> final = out).
Proof.
  intros Hb Hv. exists (enforce_ground_truth out q).
  split; [reflexivity|]. split.
  - destruct fe.
    + intros w. apply (cli_main_run b q raw out w Hb Hv).
    + intros dotenv environ secrets key lines Hk Ht Hq.
      apply (st_script_run dotenv environ secrets key q b raw out lines); assumption.
  - apply enforce_ground_truth_spec.
Qed.

Lemma ground_truth_enforced_witness :
  exists final,
    final = enforce_ground_truth paraphrased_out
              (lit " How do I index a JSONB column in Postgres? ")
    /\ (forall w,
          cli.main (fun _ => Some paraphrased)
            (lit " How do I index a JSONB column in Postgres? ") w
          = ({| stdin := stdin w;
                trace := trace w
                         ++ [Run (lit " How do I index a JSONB column in Postgres? ");
                             PrintJson final] |}, inr tt))
    /\ strip (original_question final)
       = strip (lit " How do I index a JSONB column in Postgres? ")
    /\ (strip (original_question paraphrased_out)
        <> strip (lit " How do I index a JSONB column in Postgres? ") ->
        final = model_copy_original_question paraphrased_out
                  (lit " How do I index a JSONB column in Postgres? ")
        /\ original_question final
           = lit " How do I index a JSONB column in Postgres? ")
    /\ (strip (original_question paraphrased_out)
        = strip (lit " How do I index a JSONB column in Postgres? ") ->
        final = paraphrased_out).
Proof.
  apply (ground_truth_enforced CLI (fun _ => Some paraphrased)
           (lit " How do I index a JSONB column in Postgres? ")
           paraphrased paraphrased_out).
  - reflexivity.
  - vm_compute. reflexivity.
Defined.

(** What the ground-truth step does to the paraphrase: the caller's text with
    its blanks replaces it. *)
Example ground_truth_paraphrase :
  original_question
    (enforce_ground_truth paraphrased_out
       (lit " How do I index a JSONB column in Postgres? "))
  = lit " How do I index a JSONB column in Postgres? ".
Proof. vm_compute. reflexivity. Qed.

(** The CLI with nothing on the command line and a blank reply to its prompt. *)
Lemma cli_script_empty (dotenv environ : gmap string str) (argv : list str)
    (line : str) (lines : list str) (key : str) (b : backend) :
  cli.api_key dotenv environ = Some key -> truthy key = true ->
  strip (join (lit " ") (tail argv)) = [] -> strip line = [] ->
  cli.script dotenv environ argv b (start (line :: lines))
  = ({| stdin := lines;
        trace := [SetClient key; Input (lit "Enter your question: ");
                  Print (lit "No question provided. Exiting.")] |},
     inl (SystemExit 1)).
Proof.
  intros Hk Ht Ha Hl. run. rewrite Hk. simpl. rewrite Ht, Ha. simpl.
  rewrite Hl. reflexivity.
Qed.

(** X16. With nothing but blanks on the command line and the standard input
    at its end, the CLI ends with [EOFError] right after its prompt: it prints
    no message of its own and issues no request. *)
Lemma cli_script_eof (dotenv environ : gmap string str) (argv : list str)
    (key : str) (b : backend) :
  cli.api_key dotenv environ = Some key -> truthy key = true ->
  strip (join (lit " ") (tail argv)) = [] ->
  cli.script dotenv environ argv b (start [])
  = ({| stdin := [];
        trace := [SetClient key; Input (lit "Enter your question: ")] |},
     inl EOFError).
Proof.
  intros Hk Ht Ha. run. rewrite Hk. simpl. rewrite Ht, Ha. reflexivity.
Qed.

Lemma cli_script_no_key (dotenv environ : gmap string str) (argv : list str)
    (b : backend) (lines : list str) :
  truthy_opt (cli.api_key dotenv environ) = false ->
  cli.script dotenv environ argv b (start lines)
  = (start lines, inl (ValueError (lit "OPENAI_API_KEY is not set"))).
Proof. intros Hk. run. rewrite Hk. reflexivity. Qed.

Lemma st_script_empty (dotenv environ : gmap string str)
    (secrets : option (gmap string str))
    (user_q key : str) (lines : list str) (b : backend) :
  st.OPENAI_API_KEY dotenv environ secrets = inr (Some key) ->
  truthy key = true -> strip user_q = [] ->
  st.script dotenv environ secrets user_q true b (start lines)
  = ({| stdin := lines;
        trace := [SetClient key; StWarning (lit "Please enter a question.")] |},
     inl StopException).
Proof.
  intros Hk Ht Hq. run. rewrite Hk. simpl. rewrite Ht, Hq. reflexivity.
Qed.

Lemma st_script_no_key (dotenv environ : gmap string str)
    (secrets : option (gmap string str)) (k : option str)
    (user_q : str) (run_btn : bool) (b : backend) (lines : list str) :
  st.OPENAI_API_KEY dotenv environ secrets = inr k -> truthy_opt k = false ->
  st.script dotenv environ secrets user_q run_btn b (start lines)
  = ({| stdin := lines;
        trace := [StError (lit "OPENAI_API_KEY is not set. Add it to .streamlit/secrets.toml or your environment.")] |},
     inl StopException).
Proof. intros Hk Ht. run. rewrite Hk. simpl. rewrite Ht. reflexivity. Qed.

(** Without a secrets file the page ends at line 15, whatever the environment
    holds. *)
Lemma st_script_no_secrets (dotenv environ : gmap string str)
    (user_q : str) (run_btn : bool) (b : backend) (lines : list str) :
  st.script dotenv environ None user_q run_btn b (start lines)
  = ({| stdin := lines; trace := [] |}, inl StreamlitSecretNotFoundError).
Proof. reflexivity. Qed.

(** With a secrets file the lookup returns: the secret, or the variable of
    the environment when the file has none. *)
Lemma st_api_key_file (dotenv environ file : gmap string str) :
  st.OPENAI_API_KEY dotenv environ (Some file)
  = inr (match file !! "OPENAI_API_KEY"%string with
         | Some v => Some v
         | None => os_getenv (load_dotenv dotenv environ) "OPENAI_API_KEY"
         end).
Proof. reflexivity. Qed.

(** C4. Empty input. When the command line holds only blanks and the reply to
    the prompt holds only blanks, the CLI issues no generation request and
    exits with a status other than zero: status 1 after the message when the
    credential is there. When the text area holds only blanks, the UI issues
    no request and the run stops: with [st.stop()] after the warning when the
    credential is there, with [st.stop()] when a secrets file is there, and at
    the lookup of the secret when there is no secrets file. *)
Theorem empty_input_rejected (dotenv environ : gmap string str)
    (secrets : option (gmap string str))
    (argv : list str) (line user_q : str) (lines : list str) (b : backend) :
  strip (join (lit " ") (tail argv)) = [] -> strip line = [] ->
  strip user_q = [] ->
  (no_request (cli.script dotenv environ argv b (start (line :: lines))).1
   /\ exit_status (cli.script dotenv environ argv b (start (line :: lines))).2 <> 0%Z
   /\ forall key, cli.api_key dotenv environ = Some key -> truthy key = true ->
        cli.script dotenv environ argv b (start (line :: lines))
        = ({| stdin := lines;
              trace := [SetClient key; Input (lit "Enter your question: ");
                        Print (lit "No question provided. Exiting.")] |},
           inl (SystemExit 1)))
  /\ (no_request (st.script dotenv environ secrets user_q true b (start lines)).1
      /\ (st.script dotenv environ secrets user_q true b (start lines)).2
         = inl (match secrets with
                | Some _ => StopException
                | None => StreamlitSecretNotFoundError
                end)
      /\ forall key, st.OPENAI_API_KEY dotenv environ secrets = inr (Some key) ->
           truthy key = true ->
           st.script dotenv environ secrets user_q true b (start lines)
           = ({| stdin := lines;
                 trace := [SetClient key;
                           StWarning (lit "Please enter a question.")] |},
              inl StopException)).
Proof.
  intros Ha Hl Hq. split.
  - destruct (truthy_opt (cli.api_key dotenv environ)) eqn:Hk.
    + apply truthy_opt_true in Hk as (key & Hk & Ht).
      rewrite (cli_script_empty dotenv environ argv line lines key b Hk Ht Ha Hl).
      split; [repeat constructor|]. split; [simpl; lia|].
      intros key' Hk' _. rewrite Hk in Hk'. injection Hk' as <-. reflexivity.
    + rewrite (cli_script_no_key dotenv environ argv b _ Hk).
      split; [constructor|]. split; [simpl; lia|].
      intros key Hk' Ht. rewrite Hk' in Hk. simpl in Hk. congruence.
  - destruct secrets as [file|].
    + pose proof (st_api_key_file dotenv environ file) as Hf.
      destruct (truthy_opt (match file !! "OPENAI_API_KEY"%string with
                            | Some v => Some v
                            | None => os_getenv (load_dotenv dotenv environ) "OPENAI_API_KEY"
                            end)) eqn:Hk.
      * apply truthy_opt_true in Hk as (key & Hk & Ht). rewrite Hk in Hf.
        rewrite (st_script_empty dotenv environ (Some file) user_q key lines b
                   Hf Ht Hq).
        split; [repeat constructor|]. split; [reflexivity|].
        intros key' Hk' _. rewrite Hf in Hk'. injection Hk' as <-. reflexivity.
      * rewrite (st_script_no_key dotenv environ (Some file) _ user_q true b
                   lines Hf Hk).
        split; [repeat constructor|]. split; [reflexivity|].
        intros key Hk' Ht. rewrite Hf in Hk'. injection Hk' as Hk'.
        rewrite Hk' in Hk. simpl in Hk. congruence.
    + rewrite st_script_no_secrets.
      split; [constructor|]. split; [reflexivity|].
      intros key Hk' _. discriminate Hk'.
Qed.

(** C8. Missing credential. When [OPENAI_API_KEY] is unset or empty, the CLI
    raises [ValueError] before it reads anything. The UI ends before it draws
    the form: without a secrets file at the lookup of the secret, with
    [StreamlitSecretNotFoundError] and nothing shown by the script; with a
    secrets file, when the secret or else the variable is unset or empty,
    with the error message and [st.stop()]. None of these runs issues a
    generation request. *)
Theorem missing_credential_fatal (dotenv environ : gmap string str)
    (secrets : option (gmap string str))
    (argv lines : list str) (user_q : str) (run_btn : bool) (b : backend) :
  (truthy_opt (cli.api_key dotenv environ) = false ->
   cli.script dotenv environ argv b (start lines)
   = ({| stdin := lines; trace := [] |},
      inl (ValueError (lit "OPENAI_API_KEY is not set")))
   /\ exit_status (cli.script dotenv environ argv b (start lines)).2 = 1%Z
   /\ no_request (cli.script dotenv environ argv b (start lines)).1)
  /\ (secrets = None ->
      st.script dotenv environ secrets user_q run_btn b (start lines)
      = ({| stdin := lines; trace := [] |}, inl StreamlitSecretNotFoundError)
      /\ no_request (st.script dotenv environ secrets user_q run_btn b (start lines)).1)
  /\ (forall file,
        secrets = Some file ->
        truthy_opt (match file !! "OPENAI_API_KEY"%string with
                    | Some v => Some v
                    | None => os_getenv (load_dotenv dotenv environ) "OPENAI_API_KEY"
                    end) = false ->
        st.script dotenv environ secrets user_q run_btn b (start lines)
        = ({| stdin := lines;
              trace := [StError (lit "OPENAI_API_KEY is not set. Add it to .streamlit/secrets.toml or your environment.")] |},
           inl StopException)
        /\ no_request (st.script dotenv environ secrets user_q run_btn b (start lines)).1).
Proof.
  split; [|split].
  - intros Hk. rewrite (cli_script_no_key dotenv environ argv b lines Hk).
    split; [reflexivity|]. split; [reflexivity|constructor].
  - intros ->. rewrite st_script_no_secrets. split; [reflexivity|constructor].
  - intros file -> Hk.
    rewrite (st_script_no_key dotenv environ (Some file) _ user_q run_btn b
               lines (st_api_key_file dotenv environ file) Hk).
    split; [reflexivity|]. repeat constructor.
Qed.

Ltac cases_of_run H :=
  repeat match type of H with
         | context [truthy_opt ?o] =>
             let E := fresh "E" in destruct (truthy_opt o) eqn:E; simpl in H
         | context [truthy ?s] =>
             let E := fresh "E" in destruct (truthy s) eqn:E; simpl in H
         | context [match ?l with [] => _ | _ :: _ => _ end] =>
             is_var l; destruct l; simpl in H
         | context [match ?b ?q with Some _ => _ | None => _ end] =>
             destruct (b q); simpl in H
         end.

Ltac event_in H :=
  repeat (apply elem_of_cons in H as [H|H];
          [try discriminate H; try (injection H as ->; assumption)|]);
  try (apply elem_of_nil in H; contradiction).

(** X11. Every generation request of the CLI, in any run, carries a question
    that is not empty. *)
Lemma cli_requests_nonempty (dotenv environ : gmap string str)
    (argv lines : list str) (b : backend) (q : str) :
  Run q ∈ trace (cli.script dotenv environ argv b (start lines)).1 ->
  truthy q = true.
Proof.
  intros H. revert H. run. intros H. cases_of_run H; event_in H.
Qed.

(** X12. Every generation request of the UI, in any run, carries a question
    that is not blank. *)
Lemma st_requests_nonempty (dotenv environ : gmap string str)
    (secrets : option (gmap string str))
    (user_q : str) (run_btn : bool) (b : backend) (lines : list str) (q : str) :
  Run q ∈ trace (st.script dotenv environ secrets user_q run_btn b (start lines)).1 ->
  truthy (strip q) = true.
Proof.
  intros H. revert H. run. intros H.
  destruct secrets as [file|]; simpl in H; [|event_in H].
  destruct run_btn; simpl in H; cases_of_run H; event_in H.
Qed.

(** A variable set in neither the environment nor the .env file (nor, for the
    UI, the secrets file) leaves the credential unset. *)
Lemma cli_api_key_unset (dotenv environ : gmap string str) :
  environ !! "OPENAI_API_KEY"%string = None ->
  dotenv !! "OPENAI_API_KEY"%string = None ->
  truthy_opt (cli.api_key dotenv environ) = false.
Proof.
  intros He Hd. unfold cli.api_key, os_getenv, load_dotenv.
  rewrite (proj2 (lookup_union_None _ _ _) (conj He Hd)). reflexivity.
Qed.

Lemma st_api_key_unset (dotenv environ file : gmap string str) :
  file !! "OPENAI_API_KEY"%string = None ->
  environ !! "OPENAI_API_KEY"%string = None ->
  dotenv !! "OPENAI_API_KEY"%string = None ->
  truthy_opt (match file !! "OPENAI_API_KEY"%string with
              | Some v => Some v
              | None => os_getenv (load_dotenv dotenv environ) "OPENAI_API_KEY"
              end) = false.
Proof.
  intros Hs He Hd. rewrite Hs. apply cli_api_key_unset; assumption.
Qed.

(** A variable of the environment wins over the .env file, also when it is
    set to the empty string. *)
Lemma cli_api_key_environ (dotenv environ : gmap string str) (v : str) :
  environ !! "OPENAI_API_KEY"%string = Some v ->
  cli.api_key dotenv environ = Some v.
Proof.
  intros He. unfold cli.api_key, os_getenv, load_dotenv.
  apply lookup_union_Some_l. exact He.
Qed.

Lemma missing_credential_fatal_witness :
  cli.script ∅ ∅ [lit "askBetterAgentCLI.py"; lit "Fix this SQL?"]
    (fun _ => Some paraphrased) (start [lit "Fix this SQL?"])
  = ({| stdin := [lit "Fix this SQL?"]; trace := [] |},
     inl (ValueError (lit "OPENAI_API_KEY is not set")))
  /\ st.script ∅ ∅ None (lit "Fix this SQL?") true
       (fun _ => Some paraphrased) (start [lit "Fix this SQL?"])
     = ({| stdin := [lit "Fix this SQL?"]; trace := [] |},
        inl StreamlitSecretNotFoundError)
  /\ st.script ∅ ∅ (Some ∅) (lit "Fix this SQL?") true
       (fun _ => Some paraphrased) (start [lit "Fix this SQL?"])
     = ({| stdin := [lit "Fix this SQL?"];
           trace := [StError (lit "OPENAI_API_KEY is not set. Add it to .streamlit/secrets.toml or your environment.")] |},
        inl StopException).
Proof.
  destruct (missing_credential_fatal ∅ ∅ (Some ∅)
              [lit "askBetterAgentCLI.py"; lit "Fix this SQL?"]
              [lit "Fix this SQL?"] (lit "Fix this SQL?") true
              (fun _ => Some paraphrased)) as (Hcli & _ & Hst).
  destruct (missing_credential_fatal ∅ ∅ None
              [lit "askBetterAgentCLI.py"; lit "Fix this SQL?"]
              [lit "Fix this SQL?"] (lit "Fix this SQL?") true
              (fun _ => Some paraphrased)) as (_ & Hnone & _).
  split; [|split].
  - apply Hcli. apply cli_api_key_unset; apply lookup_empty.
  - apply Hnone. reflexivity.
  - apply (Hst ∅); [reflexivity|]. apply st_api_key_unset; apply lookup_empty.
Defined.

Lemma empty_input_rejected_witness :
  cli.script ∅ with_key [lit "askBetterAgentCLI.py"; lit " "; lit ""]
    (fun _ => Some paraphrased) (start [lit "   "])
  = ({| stdin := [];
        trace := [SetClient (lit "sk-test"); Input (lit "Enter your question: ");
                  Print (lit "No question provided. Exiting.")] |},
     inl (SystemExit 1))
  /\ st.script ∅ with_key (Some ∅) (lit "  ") true (fun _ => Some paraphrased) (start [])
     = ({| stdin := [];
           trace := [SetClient (lit "sk-test");
                     StWarning (lit "Please enter a question.")] |},
        inl StopException).
Proof.
  destruct (empty_input_rejected ∅ with_key (Some ∅)
              [lit "askBetterAgentCLI.py"; lit " "; lit ""] (lit "   ")
              (lit "  ") [] (fun _ => Some paraphrased))
    as [(_ & _ & Hcli) (_ & _ & Hst)]; try reflexivity.
  split.
  - apply (Hcli (lit "sk-test")); reflexivity.
  - apply (Hst (lit "sk-test")); reflexivity.
Defined.

Example rewrites_count_code_points :
  RewritesModel_validate
    {| raw_minimal := replicate 280 0xE9; raw_ideal := replicate 280 0x1F9ED |}
  = Some {| minimal := replicate 280 0xE9; ideal := replicate 280 0x1F9ED |}
  /\ utf8_size (replicate 280 0xE9) = 560%nat
  /\ utf8_size (replicate 280 0x1F9ED) = 1120%nat
  /\ RewritesModel_validate
       {| raw_minimal := replicate 281 (chr "a"); raw_ideal := [] |} = None.
Proof. repeat split; vm_compute; reflexivity. Qed.

Lemma cli_requests_nonempty_witness :
  truthy (lit "Fix this SQL?") = true.
Proof.
  apply (cli_requests_nonempty ∅ with_key
           [lit "askBetterAgentCLI.py"; lit "Fix"; lit "this"; lit "SQL?"] []
           (fun _ => Some paraphrased) (lit "Fix this SQL?")).
  vm_compute. apply list_elem_of_further, list_elem_of_here.
Defined.

Lemma st_requests_nonempty_witness :
  truthy (strip (lit " Fix this SQL? ")) = true.
Proof.
  apply (st_requests_nonempty ∅ with_key (Some ∅) (lit " Fix this SQL? ") true
           (fun _ => Some paraphrased) [] (lit " Fix this SQL? ")).
  vm_compute. apply list_elem_of_further, list_elem_of_here.
Defined.


(** * Further properties *)

(** ** The matcher against what a pattern matches *)

Section MatcherCorrect.
Context {U : Unicode}.

Lemma after_nil p : after p [] = p.
Proof. reflexivity. Qed.

Lemma after_app p w1 w2 : after p (w1 ++ w2) = after (after p w1) w2.
Proof.
  unfold after. rewrite last_app. destruct (last w2); reflexivity.
Qed.

Lemma after_None w : after None w = last w.
Proof. unfold after. destruct (last w); reflexivity. Qed.

Lemma times_app M n j p w1 w2 t :
  times M n p w1 (w2 ++ t) -> times M j (after p w1) w2 t ->
  times M (n + j) p (w1 ++ w2) t.
Proof.
  revert p w1. induction n as [|n IH]; intros p w1 H1 H2.
  - inversion H1; subst. exact H2.
  - inversion H1 as [|? ? u1 u2 ? Hu Hrest]; subst.
    rewrite <- app_assoc. simpl. constructor.
    + rewrite <- app_assoc. exact Hu.
    + apply IH; [exact Hrest|]. rewrite <- after_app. exact H2.
Qed.

Lemma times_split M n j p w t :
  times M (n + j) p w t ->
  exists w1 w2, w = w1 ++ w2 /\ times M n p w1 (w2 ++ t)
                /\ times M j (after p w1) w2 t.
Proof.
  revert p w. induction n as [|n IH]; intros p w H.
  - exists [], w. repeat split; [constructor|exact H].
  - simpl in H. inversion H as [|? ? u1 u2 ? Hu Hrest]; subst.
    apply IH in Hrest as (v1 & v2 & -> & Hv1 & Hv2).
    exists (u1 ++ v1), v2. split; [apply app_assoc|]. split.
    + constructor; [rewrite <- app_assoc in Hu; exact Hu|exact Hv1].
    + rewrite after_app. exact Hv2.
Qed.

Lemma must_sound M mb (after_k : cont) n p t :
  sound M mb -> must mb after_k n p t = true ->
  exists w t', t = w ++ t' /\ times M n p w t' /\ after_k (after p w) t' = true.
Proof.
  intros Hs. revert p t. induction n as [|n IH]; intros p t H; simpl in H.
  - exists [], t. repeat split; [constructor|exact H].
  - apply Hs in H as (w1 & t1 & -> & HM & H).
    apply IH in H as (w2 & t' & -> & Ht & H).
    exists (w1 ++ w2), t'. split; [apply app_assoc|]. split.
    + constructor; assumption.
    + rewrite after_app. exact H.
Qed.

Lemma may_sound M mb greedy (k : cont) n p t :
  sound M mb -> may mb greedy k n p t = true ->
  exists j w t', (j <= n)%nat /\ t = w ++ t' /\ times M j p w t'
                 /\ k (after p w) t' = true.
Proof.
  intros Hs. revert p t. induction n as [|n IH]; intros p t H; simpl in H.
  - exists O, [], t. split; [lia|]. split; [reflexivity|].
    split; [constructor|exact H].
  - assert (Hcase : mb p t (fun p' t' => may mb greedy k n p' t') = true
                    \/ k p t = true).
    { destruct greedy.
      - destruct (mb p t _); [left; reflexivity|right; exact H].
      - destruct (k p t); [right; reflexivity|left; exact H]. }
    destruct Hcase as [Hm|Hk].
    + apply Hs in Hm as (w1 & t1 & -> & HM & Hm).
      apply IH in Hm as (j & w2 & t' & Hj & -> & Ht & Hk).
      exists (S j), (w1 ++ w2), t'. split; [lia|].
      split; [apply app_assoc|]. split.
      * constructor; assumption.
      * rewrite after_app. exact Hk.
    + exists O, [], t. split; [lia|]. split; [reflexivity|].
      split; [constructor|exact Hk].
Qed.

(** The matcher accepts only what the pattern matches. *)
Lemma m_sound (r : regex) : sound (matches r) (m r).
Proof.
  induction r as [items| |r1 IH1 r2 IH2|lo hi greedy body IH];
    intros p t k H; simpl in H.
  - destruct t as [|c t]; [discriminate H|].
    destruct (cset_mem items c) eqn:Hc; [|discriminate H].
    exists [c], t. split; [reflexivity|]. split; [|exact H].
    exists c. auto.
  - destruct (at_boundary p t) eqn:Hb; [|discriminate H].
    exists [], t. repeat split; assumption.
  - apply IH1 in H as (w1 & t1 & -> & H1 & H).
    apply IH2 in H as (w2 & t' & -> & H2 & H).
    exists (w1 ++ w2), t'. split; [apply app_assoc|]. split.
    + exists w1, w2. auto.
    + rewrite after_app. exact H.
  - apply (must_sound (matches body)) in H as (w1 & t1 & -> & Hlo & H);
      [|exact IH].
    apply (may_sound (matches body)) in H as (j & w2 & t' & Hj & -> & Hj' & H);
      [|exact IH].
    exists (w1 ++ w2), t'. split; [apply app_assoc|]. split.
    + exists (lo + j)%nat. split; [lia|]. split.
      * intros h ->. simpl in Hj. lia.
      * apply times_app; assumption.
    + rewrite after_app. exact H.
Qed.

Lemma after_cons p c w : after p (c :: w) = after (Some c) w.
Proof.
  change (c :: w) with ([c] ++ w). rewrite after_app. reflexivity.
Qed.

Lemma must_complete M mb (after_k : cont) n p w t' :
  complete M mb -> times M n p w t' -> after_k (after p w) t' = true ->
  must mb after_k n p (w ++ t') = true.
Proof.
  intros Hc Ht. induction Ht as [p t|n p w1 w2 t HM Ht IH]; intros Hk; simpl.
  - exact Hk.
  - rewrite <- app_assoc. apply Hc; [exact HM|].
    apply IH. rewrite <- after_app. exact Hk.
Qed.

Lemma may_complete M mb greedy (k : cont) n j p w t' :
  complete M mb -> times M j p w t' -> (j <= n)%nat ->
  k (after p w) t' = true ->
  may mb greedy k n p (w ++ t') = true.
Proof.
  intros Hc Ht. revert n.
  induction Ht as [p t|j p w1 w2 t HM Ht IH]; intros n Hj Hk.
  - destruct n as [|n]; simpl; [exact Hk|].
    rewrite after_nil in Hk. simpl in Hk. rewrite Hk.
    destruct greedy; [|reflexivity].
    destruct (mb p t _); reflexivity.
  - destruct n as [|n]; [lia|]. simpl.
    assert (E : mb p ((w1 ++ w2) ++ t)
                  (fun p' t' => may mb greedy k n p' t') = true).
    { rewrite <- app_assoc. apply Hc; [exact HM|].
      apply IH; [lia|]. rewrite <- after_app. exact Hk. }
    rewrite E. destruct greedy; [reflexivity|].
    destruct (k p ((w1 ++ w2) ++ t)); reflexivity.
Qed.

Lemma times_length M n p w t :
  (forall q u v, M q u v -> (1 <= length u)%nat) ->
  times M n p w t -> (n <= length w)%nat.
Proof.
  intros HM Ht. induction Ht as [|n p w1 w2 t H1 Ht IH]; simpl; [lia|].
  apply HM in H1. rewrite length_app. lia.
Qed.

(** A consuming pattern matches no empty text. *)
Lemma matches_consuming (r : regex) p w t :
  consuming r = true -> matches r p w t -> (1 <= length w)%nat.
Proof.
  revert p w t.
  induction r as [items| |r1 IH1 r2 IH2|lo hi greedy body IH];
    simpl; intros p w t Hc H.
  - destruct H as (c & -> & _). simpl. lia.
  - discriminate Hc.
  - destruct H as (w1 & w2 & -> & H1 & H2). rewrite length_app.
    destruct (consuming r1).
    + specialize (IH1 _ _ _ eq_refl H1). lia.
    + specialize (IH2 _ _ _ Hc H2). lia.
  - apply andb_prop in Hc as [Hlo Hb].
    destruct H as (n & Hn & _ & Ht).
    apply (times_length (matches body)) in Ht.
    + destruct lo; [discriminate Hlo|]. lia.
    + intros q u v. apply IH. exact Hb.
Qed.

(** The matcher accepts all that the pattern matches, when every loop
    without upper bound has a consuming body. *)
Lemma m_complete (r : regex) :
  loops_consume r = true -> complete (matches r) (m r).
Proof.
  induction r as [items| |r1 IH1 r2 IH2|lo hi greedy body IH];
    simpl; intros Hl p w t' k H Hk.
  - destruct H as (c & -> & Hc). simpl. rewrite Hc. exact Hk.
  - destruct H as (-> & Hb). simpl. rewrite Hb. exact Hk.
  - apply andb_prop in Hl as [Hl1 Hl2].
    destruct H as (w1 & w2 & -> & H1 & H2).
    rewrite <- app_assoc. apply IH1; [exact Hl1|exact H1|].
    apply IH2; [exact Hl2|exact H2|]. rewrite <- after_app. exact Hk.
  - apply andb_prop in Hl as [Hlb Hhi].
    destruct H as (n & Hn & Hh & Ht).
    replace n with (lo + (n - lo))%nat in Ht by lia.
    apply times_split in Ht as (w1 & w2 & -> & H1 & H2).
    rewrite <- app_assoc.
    apply (must_complete (matches body)); [apply IH; exact Hlb|exact H1|].
    apply (may_complete (matches body) _ _ _ _ (n - lo)%nat);
      [apply IH; exact Hlb|exact H2| |rewrite <- after_app; exact Hk].
    unfold rounds. destruct hi as [h|].
    + specialize (Hh h eq_refl). lia.
    + apply (times_length (matches body)) in H2.
      * rewrite length_app. lia.
      * intros q u v. apply matches_consuming. exact Hhi.
Qed.

Lemma search_from_sound (r : regex) p s :
  search_from r p s = true ->
  exists pre w post, s = pre ++ w ++ post /\ matches r (after p pre) w post.
Proof.
  revert p. induction s as [|c s IH]; intros p H; simpl in H.
  - destruct (m r p [] _) eqn:Hm; [|discriminate H].
    apply m_sound in Hm as (w & t' & E & Hw & _).
    exists [], w, t'. auto.
  - destruct (m r p (c :: s) _) eqn:Hm.
    + apply m_sound in Hm as (w & t' & E & Hw & _).
      exists [], w, t'. auto.
    + apply IH in H as (pre & w & post & -> & Hw).
      exists (c :: pre), w, post. split; [reflexivity|].
      rewrite after_cons. exact Hw.
Qed.

Lemma search_from_complete (r : regex) p pre w post :
  loops_consume r = true -> matches r (after p pre) w post ->
  search_from r p (pre ++ w ++ post) = true.
Proof.
  intros Hl. revert p. induction pre as [|c pre IH]; intros p Hw.
  - assert (Hm : m r p (w ++ post) (fun _ _ => true) = true)
      by (apply m_complete; auto).
    simpl. remember (w ++ post) as s eqn:Es. clear Es.
    destruct s; simpl; rewrite Hm; reflexivity.
  - simpl. destruct (m r p _ _); [reflexivity|].
    apply IH. rewrite <- (after_cons p c pre). exact Hw.
Qed.

(** [re.search] finds a pattern exactly when it occurs in the text. *)
Lemma re_search_occurs (r : regex) (text : str) :
  loops_consume r = true -> re_search r text = true <-> occurs r text.
Proof.
  intros Hl. unfold re_search, occurs. split.
  - intros H. apply search_from_sound in H as (pre & w & post & -> & Hw).
    rewrite after_None in Hw. eauto.
  - intros (pre & w & post & -> & Hw).
    apply search_from_complete; [exact Hl|]. rewrite after_None. exact Hw.
Qed.

Lemma re_search_sound (r : regex) (text : str) :
  re_search r text = true -> occurs r text.
Proof.
  unfold re_search, occurs. intros H.
  apply search_from_sound in H as (pre & w & post & -> & Hw).
  rewrite after_None in Hw. eauto.
Qed.

End MatcherCorrect.

(** ** Counting characters in a match *)

Section Counting.
Context {U : Unicode}.
Variable f : N -> bool.
Variables sure maybe : list cset_item -> bool.
Hypothesis sure_ok :
  forall items c, sure items = true -> cset_mem items c = true -> f c = true.
Hypothesis maybe_ok :
  forall items c, cset_mem items c = true -> f c = true -> maybe items = true.

Lemma count_app w1 w2 : count f (w1 ++ w2) = (count f w1 + count f w2)%nat.
Proof. induction w1 as [|c w1 IH]; simpl; [reflexivity|]. rewrite IH. lia. Qed.

Lemma count_length w : (count f w <= length w)%nat.
Proof. induction w as [|c w IH]; simpl; [lia|]. destruct (f c); lia. Qed.

Lemma times_min M a n p w t :
  (forall q u v, M q u v -> (a <= count f u)%nat) ->
  times M n p w t -> (n * a <= count f w)%nat.
Proof.
  intros HM Ht. induction Ht as [|n p w1 w2 t H1 Ht IH]; simpl; [lia|].
  apply HM in H1. rewrite count_app. lia.
Qed.

Lemma times_max M b n p w t :
  (forall q u v, M q u v -> (count f u <= b)%nat) ->
  times M n p w t -> (count f w <= n * b)%nat.
Proof.
  intros HM Ht. induction Ht as [|n p w1 w2 t H1 Ht IH]; simpl; [lia|].
  apply HM in H1. rewrite count_app. lia.
Qed.

Lemma matches_min (r : regex) p w t :
  matches r p w t -> (min_count sure r <= count f w)%nat.
Proof.
  revert p w t.
  induction r as [items| |r1 IH1 r2 IH2|lo hi greedy body IH];
    simpl; intros p w t H.
  - destruct H as (c & -> & Hc). simpl.
    destruct (sure items) eqn:Hs; [|lia].
    rewrite (sure_ok items c Hs Hc). lia.
  - lia.
  - destruct H as (w1 & w2 & -> & H1 & H2). rewrite count_app.
    apply IH1 in H1. apply IH2 in H2. lia.
  - destruct H as (n & Hn & _ & Ht).
    apply (times_min _ (min_count sure body)) in Ht; [|exact IH]. nia.
Qed.

Lemma matches_max (r : regex) b p w t :
  max_count maybe r = Some b -> matches r p w t -> (count f w <= b)%nat.
Proof.
  revert b p w t.
  induction r as [items| |r1 IH1 r2 IH2|lo hi greedy body IH];
    simpl; intros b p w t Hb H.
  - injection Hb as <-. destruct H as (c & -> & Hc). simpl.
    destruct (f c) eqn:Hf; [|lia].
    rewrite (maybe_ok items c Hc Hf). lia.
  - injection Hb as <-. destruct H as (-> & _). simpl. lia.
  - destruct (max_count maybe r1) as [a1|]; [|discriminate Hb].
    destruct (max_count maybe r2) as [a2|]; [|discriminate Hb].
    simpl in Hb. injection Hb as <-.
    destruct H as (w1 & w2 & -> & H1 & H2). rewrite count_app.
    apply (IH1 a1) in H1; [|reflexivity].
    apply (IH2 a2) in H2; [|reflexivity]. lia.
  - destruct (max_count maybe body) as [a|]; [|discriminate Hb]. simpl in Hb.
    destruct H as (n & Hn & Hh & Ht).
    apply (times_max _ a) in Ht; [|intros q u v; apply IH; reflexivity].
    destruct a as [|a].
    + injection Hb as <-. lia.
    + destruct hi as [h|]; [|discriminate Hb]. injection Hb as <-.
      specialize (Hh h eq_refl). nia.
Qed.

Lemma occurs_min (r : regex) (text : str) :
  occurs r text -> (min_count sure r <= count f text)%nat.
Proof.
  intros (pre & w & post & -> & H). apply matches_min in H.
  rewrite !count_app. lia.
Qed.

End Counting.

Section Flags.
Context {U : Unicode}.

Lemma all_decimal_ok items c :
  all_decimal items = true -> cset_mem items c = true -> isdecimal c = true.
Proof.
  unfold all_decimal, cset_mem. induction items as [|it items IH]; simpl;
    [discriminate|].
  intros Ha Hm. apply andb_prop in Ha as [Hit Ha].
  apply orb_prop in Hm as [Hm|Hm]; [|auto].
  destruct it as [x|[| |]]; simpl in Hm; try discriminate Hit.
  - apply N.eqb_eq in Hm as ->. exact Hit.
  - exact Hm.
Qed.

Lemma only_ok c0 items c :
  only c0 items = true -> cset_mem items c = true -> (c =? c0) = true.
Proof.
  unfold only, cset_mem. induction items as [|it items IH]; simpl;
    [discriminate|].
  intros Ha Hm. apply andb_prop in Ha as [Hit Ha].
  apply orb_prop in Hm as [Hm|Hm]; [|auto].
  destruct it as [x|k]; [|discriminate Hit]. simpl in Hm.
  apply N.eqb_eq in Hm as ->. exact Hit.
Qed.

Lemma count_pos_elem (c0 : N) (w : str) :
  (1 <= count (fun c => (c =? c0)%N) w)%nat -> c0 ∈ w.
Proof.
  induction w as [|c w IH]; simpl; [lia|].
  destruct (N.eqb_spec c c0) as [->|_]; intros H.
  - apply list_elem_of_here.
  - apply list_elem_of_further, IH. lia.
Qed.

Lemma count_zero f (w : str) :
  Forall (fun c => f c = false) w -> count f w = O.
Proof. induction 1 as [|c w Hc _ IH]; simpl; [reflexivity|]. rewrite Hc, IH. reflexivity. Qed.

(** When each flag is raised. *)
Lemma pii_scan_flag (text : str) :
  (lit "email" ∈ pii_scan text <-> re_search email_re text = true)
  /\ (lit "phone" ∈ pii_scan text <-> re_search phone_re text = true)
  /\ (lit "card-ish" ∈ pii_scan text <-> re_search card_re text = true).
Proof.
  rewrite pii_scan_cases.
  destruct (re_search email_re text), (re_search phone_re text),
    (re_search card_re text); simpl; repeat split; intros H;
    try reflexivity; try discriminate H;
    repeat (apply elem_of_cons in H as [H|H]; [discriminate H|]);
    try (apply elem_of_nil in H; contradiction);
    repeat first [apply list_elem_of_here|apply list_elem_of_further].
Qed.

(** X1. A flag needs its characters: "email" is raised only for a text of at
    least six characters with an at sign and a full stop, "phone" only for a
    text with at least seven decimal digits, "card-ish" only for a text with
    at least thirteen; so a text without a decimal digit and without an at
    sign gets no flag. *)
Theorem pii_scan_flags_need (text : str) :
  (lit "email" ∈ pii_scan text ->
   chr "@" ∈ text /\ chr "." ∈ text /\ (6 <= length text)%nat)
  /\ (lit "phone" ∈ pii_scan text -> (7 <= count isdecimal text)%nat)
  /\ (lit "card-ish" ∈ pii_scan text -> (13 <= count isdecimal text)%nat)
  /\ (Forall (fun c => isdecimal c = false /\ c <> chr "@") text ->
      pii_scan text = []).
Proof.
  destruct (pii_scan_flag text) as (He & Hp & Hc).
  assert (Nemail : re_search email_re text = true ->
                   chr "@" ∈ text /\ chr "." ∈ text /\ (6 <= length text)%nat).
  { intros H. apply re_search_sound in H. repeat split.
    - apply count_pos_elem.
      apply (occurs_min _ (only (chr "@")) (only_ok (chr "@"))) in H. exact H.
    - apply count_pos_elem.
      apply (occurs_min _ (only (chr ".")) (only_ok (chr "."))) in H. exact H.
    - apply (occurs_min (fun _ => true) (fun _ => true)) in H; [|reflexivity].
      pose proof (count_length (fun _ => true) text). simpl in H. lia. }
  assert (Nphone : re_search phone_re text = true ->
                   (7 <= count isdecimal text)%nat).
  { intros H. apply re_search_sound in H.
    apply (occurs_min _ all_decimal all_decimal_ok) in H. exact H. }
  assert (Ncard : re_search card_re text = true ->
                  (13 <= count isdecimal text)%nat).
  { intros H. apply re_search_sound in H.
    apply (occurs_min _ all_decimal all_decimal_ok) in H. exact H. }
  split; [intros H; apply Nemail, He, H|].
  split; [intros H; apply Nphone, Hp, H|].
  split; [intros H; apply Ncard, Hc, H|].
  intros Hnone. rewrite pii_scan_cases.
  assert (Hd : count isdecimal text = O).
  { apply count_zero. eapply Forall_impl; [exact Hnone|]. intros c [E _]. exact E. }
  destruct (re_search email_re text).
  { destruct (Nemail eq_refl) as (Hat & _).
    rewrite Forall_forall in Hnone. destruct (Hnone _ Hat) as [_ Hne].
    contradiction. }
  destruct (re_search phone_re text); [specialize (Nphone eq_refl); lia|].
  destruct (re_search card_re text); [specialize (Ncard eq_refl); lia|].
  reflexivity.
Qed.

End Flags.

(** ** Texts that are flagged *)

Section Shapes.
Context {U : Unicode}.

Lemma matches_seq (r1 r2 : regex) p w1 w2 t :
  matches r1 p w1 (w2 ++ t) -> matches r2 (after p w1) w2 t ->
  matches (Seq r1 r2) p (w1 ++ w2) t.
Proof. intros H1 H2. exists w1, w2. auto. Qed.

Lemma matches_boundary p t :
  at_boundary p t = true -> matches Boundary p [] t.
Proof. intros H. split; [reflexivity|exact H]. Qed.

Lemma matches_char items p c t :
  cset_mem items c = true -> matches (Chars items) p [c] t.
Proof. intros H. exists c. auto. Qed.

Lemma times_chars items p (s : str) t :
  Forall (fun c => cset_mem items c = true) s ->
  times (matches (Chars items)) (length s) p s t.
Proof.
  intros H. revert p. induction H as [|c s Hc _ IH]; intros p; simpl.
  - constructor.
  - change (c :: s) with ([c] ++ s). constructor.
    + exact (matches_char items p c (s ++ t) Hc).
    + apply IH.
Qed.

(** [items{lo,hi}] or [items{lo,}] on a run of members of the set. *)
Lemma matches_run items lo hi greedy p (s : str) t :
  (lo <= length s)%nat ->
  (forall h, hi = Some h -> length s <= h)%nat ->
  Forall (fun c => cset_mem items c = true) s ->
  matches (Repeat lo hi greedy (Chars items)) p s t.
Proof.
  intros Hlo Hhi Hs. exists (length s). split; [exact Hlo|]. split.
  - intros h Hh. specialize (Hhi h Hh). lia.
  - apply times_chars. exact Hs.
Qed.

Lemma matches_skip (r : regex) hi greedy p t :
  matches (Repeat 0 hi greedy r) p [] t.
Proof.
  exists O. split; [lia|]. split; [intros; lia|constructor].
Qed.

Lemma matches_once (r : regex) greedy p w t :
  matches r p w t -> matches (Repeat 0 (Some 1%nat) greedy r) p w t.
Proof.
  intros H. exists 1%nat. split; [lia|]. split; [intros h [= <-]; lia|].
  rewrite <- (app_nil_r w). constructor; [exact H|constructor].
Qed.

Lemma ascii_digit_decimal c : ascii_digit c -> isdecimal c = true.
Proof.
  intros H. apply ascii_digit_cases in H.
  repeat (destruct H as [H|H]; [subst; reflexivity|]). subst. reflexivity.
Qed.

Lemma ascii_digit_word c : ascii_digit c -> isword c = true.
Proof.
  intros H. apply ascii_digit_cases in H.
  repeat (destruct H as [H|H]; [subst; reflexivity|]). subst. reflexivity.
Qed.

Lemma ascii_digit_mem c : ascii_digit c -> cset_mem [Category Digit] c = true.
Proof. intros H. simpl. rewrite (ascii_digit_decimal c H). reflexivity. Qed.

Lemma after_last p w c : last w = Some c -> after p w = Some c.
Proof. unfold after. intros ->. reflexivity. Qed.

Lemma at_boundary_start p c (s : str) :
  word_at p = false -> isword c = true -> at_boundary p (c :: s) = true.
Proof. unfold at_boundary. simpl. intros -> ->. reflexivity. Qed.

Lemma at_boundary_end c (t : str) :
  isword c = true -> word_at (head t) = false -> at_boundary (Some c) t = true.
Proof. unfold at_boundary. simpl. intros -> ->. reflexivity. Qed.

Lemma grouped_app c1 c2 : grouped (c1 ++ c2) = grouped c1 ++ grouped c2.
Proof. unfold grouped. rewrite fmap_app, concat_app. reflexivity. Qed.

Lemma times_chunks p chunks t :
  Forall card_chunk chunks ->
  times (matches (Cat Digit · LazyStar blank_dash)%re) (length chunks) p
    (grouped chunks) t.
Proof.
  intros H. revert p. induction H as [|[d seps] chunks [Hd Hs] _ IH]; intros p.
  - constructor.
  - change (grouped ((d, seps) :: chunks))
      with ((d :: seps) ++ grouped chunks).
    simpl length. constructor; [|apply IH].
    change (d :: seps) with ([d] ++ seps). apply matches_seq.
    + exact (matches_char _ p d _ (ascii_digit_mem d Hd)).
    + apply matches_run; [simpl; lia|discriminate|].
      simpl in Hs. eapply Forall_impl; [exact Hs|].
      intros c [->| ->]; reflexivity.
Qed.

End Shapes.

Section Flagged.
Context {U : Unicode}.

Lemma grouped_head chunks :
  Forall card_chunk chunks -> chunks <> [] ->
  exists c rest, grouped chunks = c :: rest /\ ascii_digit c.
Proof.
  intros H Hne. destruct H as [|[d seps] chunks [Hd _] _]; [contradiction|].
  exists d, (seps ++ grouped chunks). split; [reflexivity|exact Hd].
Qed.

(** X2. Thirteen to sixteen ASCII digits, each followed by any number of
    blanks and hyphens before the next, are flagged "card-ish" wherever they
    stand in a text, unless a word character stands right before the first
    digit or right behind the last. *)
Theorem card_number_flagged (pre post : str) (chunks : list (N * str)) :
  (13 <= length chunks <= 16)%nat -> Forall card_chunk chunks ->
  word_at (last pre) = false -> word_at (head post) = false ->
  lit "card-ish" ∈ pii_scan (pre ++ grouped chunks ++ post).
Proof.
  intros Hn Hc Hpre Hpost.
  apply (proj2 (proj2 (pii_scan_flag _))).
  apply re_search_occurs; [reflexivity|].
  assert (Hne : chunks <> []) by (intros ->; simpl in Hn; lia).
  destruct (exists_last Hne) as (init & [d s] & ->).
  apply Forall_app in Hc as [Hinit Hlast].
  apply Forall_cons in Hlast as [[Hd Hs] _]. cbn [fst snd] in Hd, Hs.
  set (digits_only := init ++ [(d, [])]).
  assert (Hok : Forall card_chunk digits_only).
  { apply Forall_app. split; [exact Hinit|].
    apply Forall_cons. split; [|constructor]. split; [exact Hd|constructor]. }
  assert (Hlen : length digits_only = length (init ++ [(d, s)]))
    by (unfold digits_only; rewrite !length_app; reflexivity).
  exists pre, (grouped digits_only), (s ++ post). split.
  { unfold digits_only. rewrite !grouped_app. unfold grouped. simpl.
    rewrite !app_nil_r, <- !app_assoc. reflexivity. }
  destruct (grouped_head digits_only Hok) as (c & rest & Hw & Hcd).
  { unfold digits_only. destruct init; discriminate. }
  assert (Hl : last (grouped digits_only) = Some d).
  { unfold digits_only. rewrite grouped_app. unfold grouped at 2. simpl.
    apply last_snoc. }
  change (grouped digits_only) with ([] ++ grouped digits_only).
  apply matches_seq.
  - apply matches_boundary. rewrite Hw. simpl.
    apply at_boundary_start; [exact Hpre|apply ascii_digit_word; exact Hcd].
  - rewrite after_nil. rewrite <- (app_nil_r (grouped digits_only)).
    apply matches_seq.
    + exists (length digits_only). split; [lia|]. split.
      * intros h [= <-]. lia.
      * apply times_chunks. exact Hok.
    + apply matches_boundary. rewrite (after_last _ _ d Hl).
      apply at_boundary_end; [apply ascii_digit_word; exact Hd|].
      destruct Hs as [|x s [-> | ->] _]; [exact Hpost|reflexivity|reflexivity].
Qed.

Lemma separator_mem c :
  separator_char c = true -> cset_mem [Literal (chr "-"); Literal (chr "."); Category Space] c = true.
Proof.
  unfold separator_char, cset_mem. cbn [existsb item_mem]. intros H.
  rewrite orb_false_r, orb_assoc. exact H.
Qed.

Lemma name_mem c :
  name_char c = true ->
  cset_mem [Category Word; Literal (chr "."); Literal (chr "-")] c = true.
Proof.
  unfold name_char, cset_mem. cbn [existsb item_mem]. intros H.
  rewrite orb_false_r, orb_assoc. exact H.
Qed.

Lemma word_mem c : isword c = true -> cset_mem [Category Word] c = true.
Proof.
  unfold cset_mem. cbn [existsb item_mem]. intros ->. reflexivity.
Qed.

(** X3. Seven ASCII digits written as three and four, with nothing or one
    hyphen, full stop or white-space character between the two groups, are
    flagged "phone" wherever they stand in a text, unless a word character
    stands right before the first digit or right behind the last. *)
Theorem phone_number_flagged (pre exch sep subs post : str) :
  length exch = 3%nat -> length subs = 4%nat ->
  Forall ascii_digit exch -> Forall ascii_digit subs ->
  (sep = [] \/ exists s, sep = [s] /\ separator_char s = true) ->
  word_at (last pre) = false -> word_at (head post) = false ->
  lit "phone" ∈ pii_scan (pre ++ exch ++ sep ++ subs ++ post).
Proof.
  intros Le Ls He Hs Hsep Hpre Hpost.
  apply (proj1 (proj2 (pii_scan_flag _))).
  apply re_search_occurs; [reflexivity|].
  exists pre, (exch ++ sep ++ subs), post.
  split; [rewrite <- !app_assoc; reflexivity|].
  destruct exch as [|a [|b [|c [|]]]]; try discriminate Le.
  destruct subs as [|d [|e [|f [|g [|]]]]]; try discriminate Ls.
  assert (Ha : isword a = true).
  { apply ascii_digit_word. inversion He; assumption. }
  assert (Hg : isword g = true).
  { apply ascii_digit_word. do 3 apply Forall_cons in Hs as [_ Hs].
    inversion Hs; assumption. }
  assert (He' : Forall (fun c => cset_mem [Category Digit] c = true) [a; b; c]).
  { eapply Forall_impl; [exact He|]. intros x. apply ascii_digit_mem. }
  assert (Hs' : Forall (fun c => cset_mem [Category Digit] c = true) [d; e; f; g]).
  { eapply Forall_impl; [exact Hs|]. intros x. apply ascii_digit_mem. }
  unfold phone_re.
  replace ([a; b; c] ++ sep ++ [d; e; f; g])
    with ([] ++ [] ++ [] ++ [a; b; c] ++ sep ++ [d; e; f; g] ++ [] : str)
    by (rewrite app_nil_r; reflexivity).
  apply matches_seq.
  { apply matches_boundary. apply at_boundary_start; assumption. }
  apply matches_seq; [apply matches_skip|].
  apply matches_seq; [apply matches_skip|].
  apply matches_seq.
  { apply matches_run; [simpl; lia|intros h [= <-]; simpl; lia|exact He']. }
  apply matches_seq.
  { destruct Hsep as [->|(s & -> & Hsc)]; [apply matches_skip|].
    apply matches_once. apply matches_char, separator_mem. exact Hsc. }
  apply matches_seq.
  { apply matches_run; [simpl; lia|intros h [= <-]; simpl; lia|exact Hs']. }
  apply matches_boundary.
  rewrite <- !after_app. rewrite (after_last _ _ g).
  - apply at_boundary_end; assumption.
  - rewrite !app_assoc, last_app. reflexivity.
Qed.

(** X4. An address [local@domain.tld] is flagged "email" wherever it stands
    in a text when [local] starts with a word character and goes on with word
    characters, full stops and hyphens, [domain] is a non-empty run of such
    characters and [tld] has at least two word characters, unless a word
    character stands right before the address or right behind it. *)
Theorem email_address_flagged (pre lrest domain tld post : str) (l0 : N) :
  isword l0 = true -> Forall (fun c => name_char c = true) lrest ->
  domain <> [] -> Forall (fun c => name_char c = true) domain ->
  (2 <= length tld)%nat -> Forall (fun c => isword c = true) tld ->
  word_at (last pre) = false -> word_at (head post) = false ->
  lit "email"
  ∈ pii_scan (pre ++ (l0 :: lrest) ++ [chr "@"] ++ domain ++ [chr "."]
              ++ tld ++ post).
Proof.
  intros Hl0 Hl Hdne Hd Ht2 Ht Hpre Hpost.
  apply (proj1 (pii_scan_flag _)).
  apply re_search_occurs; [reflexivity|].
  exists pre, ((l0 :: lrest) ++ [chr "@"] ++ domain ++ [chr "."] ++ tld), post.
  split; [rewrite <- !app_assoc; reflexivity|].
  assert (Hlast : exists x, last tld = Some x /\ isword x = true).
  { destruct (last tld) as [x|] eqn:E.
    - exists x. split; [reflexivity|].
      rewrite Forall_forall in Ht. apply Ht. apply last_Some_elem_of. exact E.
    - apply last_None in E. subst. simpl in Ht2. lia. }
  destruct Hlast as (x & Hx & Hxw).
  unfold email_re.
  replace ((l0 :: lrest) ++ [chr "@"] ++ domain ++ [chr "."] ++ tld)
    with ([] ++ (l0 :: lrest) ++ [chr "@"] ++ domain ++ [chr "."] ++ tld ++ []
          : str)
    by (rewrite app_nil_r; reflexivity).
  apply matches_seq.
  { apply matches_boundary. apply at_boundary_start; assumption. }
  apply matches_seq.
  { apply matches_run; [simpl; lia|discriminate|].
    constructor; [apply name_mem; unfold name_char; rewrite Hl0; reflexivity|].
    eapply Forall_impl; [exact Hl|]. intros c. apply name_mem. }
  apply matches_seq; [apply matches_char; simpl; reflexivity|].
  apply matches_seq.
  { apply matches_run; [|discriminate|].
    - destruct domain; [contradiction|simpl; lia].
    - eapply Forall_impl; [exact Hd|]. intros c. apply name_mem. }
  apply matches_seq; [apply matches_char; simpl; reflexivity|].
  apply matches_seq.
  { apply matches_run; [exact Ht2|discriminate|].
    eapply Forall_impl; [exact Ht|]. intros c. apply word_mem. }
  apply matches_boundary.
  rewrite <- !after_app. rewrite (after_last _ _ x).
  - apply at_boundary_end; assumption.
  - rewrite !app_assoc, last_app, Hx. reflexivity.
Qed.

End Flagged.

(** ** Texts of digits only *)

Section DigitRuns.
Context {U : Unicode}.

Lemma matches_end (r : regex) p w t :
  ends_with_boundary r = true -> matches r p w t ->
  at_boundary (after p w) t = true.
Proof.
  revert p w t. induction r as [items| |r1 _ r2 IH2|lo hi greedy body _];
    simpl; intros p w t He H; try discriminate He.
  - destruct H as (-> & H). exact H.
  - destruct H as (w1 & w2 & -> & _ & H2). rewrite after_app.
    apply IH2; assumption.
Qed.

Lemma matches_start (r : regex) p w t :
  matches (Seq Boundary r) p w t -> at_boundary p (w ++ t) = true.
Proof.
  simpl. intros (w1 & w2 & -> & (-> & H) & _). exact H.
Qed.

Lemma is_ascii_digit_spec c : is_ascii_digit c = true <-> ascii_digit c.
Proof.
  unfold is_ascii_digit, ascii_digit.
  rewrite andb_true_iff, !N.leb_le. reflexivity.
Qed.

Lemma ascii_digit_not_space c : ascii_digit c -> isspace c = false.
Proof.
  intros H. apply ascii_digit_cases in H.
  repeat (destruct H as [H|H]; [subst; reflexivity|]). subst. reflexivity.
Qed.

Lemma some_ascii_digit_ok items c :
  cset_mem items c = true -> is_ascii_digit c = true ->
  some_ascii_digit items = true.
Proof.
  unfold some_ascii_digit, cset_mem. intros Hm Hd.
  apply existsb_exists in Hm as (it & Hin & Hit).
  apply existsb_exists. exists it. split; [exact Hin|].
  destruct it as [x|[| |]]; simpl in Hit; try reflexivity.
  - apply N.eqb_eq in Hit as <-. exact Hd.
  - apply is_ascii_digit_spec, ascii_digit_not_space in Hd. congruence.
Qed.

Lemma count_all f (w : str) :
  Forall (fun c => f c = true) w -> count f w = length w.
Proof.
  induction 1 as [|c w Hc _ IH]; simpl; [reflexivity|]. rewrite Hc, IH.
  reflexivity.
Qed.

(** In a text of digits only, a pattern between two [\b] that needs a digit
    matches the whole text or nothing. *)
Lemma digit_run_whole (r : regex) (pre w post : str) :
  Forall ascii_digit (pre ++ w ++ post) ->
  ends_with_boundary r = true -> (1 <= min_count all_decimal r)%nat ->
  matches (Seq Boundary r) (last pre) w post ->
  pre = [] /\ post = [].
Proof.
  intros Hd He Hmin H.
  apply Forall_app in Hd as [Hpre Hd]. apply Forall_app in Hd as [Hw Hpost].
  assert (Hne : (1 <= length w)%nat).
  { pose proof (matches_min isdecimal all_decimal all_decimal_ok _ _ _ _ H) as Hc.
    pose proof (count_length isdecimal w). simpl in Hc. lia. }
  destruct w as [|c w]; [simpl in Hne; lia|].
  assert (Hcw : isword c = true)
    by (apply ascii_digit_word; inversion Hw; assumption).
  pose proof (matches_start _ _ _ _ H) as Hs.
  assert (He' : at_boundary (after (last pre) (c :: w)) post = true).
  { destruct H as (w1 & w2 & E & (-> & _) & H2). simpl in E. subst w2.
    apply (matches_end r); assumption. }
  split.
  - destruct (last pre) as [x|] eqn:Ex; [|apply last_None in Ex; exact Ex].
    unfold at_boundary in Hs. simpl in Hs. rewrite Hcw in Hs.
    assert (Hx : isword x = true).
    { apply ascii_digit_word. rewrite Forall_forall in Hpre. apply Hpre.
      apply last_Some_elem_of. exact Ex. }
    rewrite Hx in Hs. discriminate Hs.
  - destruct (last (c :: w)) as [y|] eqn:Ey;
      [|apply last_None in Ey; discriminate Ey].
    rewrite (after_last _ _ y Ey) in He'.
    assert (Hy : isword y = true).
    { apply ascii_digit_word. rewrite Forall_forall in Hw. apply Hw.
      apply last_Some_elem_of. exact Ey. }
    unfold at_boundary in He'. simpl in He'. rewrite Hy in He'.
    destruct post as [|z post]; [reflexivity|]. simpl in He'.
    assert (Hz : isword z = true)
      by (apply ascii_digit_word; inversion Hpost; assumption).
    rewrite Hz in He'. discriminate He'.
Qed.

(** A text of digits only, longer than the most digits the pattern can take,
    is not matched. *)
Lemma digit_run_too_long (r : regex) (b : nat) (text : str) :
  Forall ascii_digit text ->
  ends_with_boundary r = true -> (1 <= min_count all_decimal r)%nat ->
  max_count some_ascii_digit r = Some b -> (b < length text)%nat ->
  re_search (Seq Boundary r) text = false.
Proof.
  intros Hd He Hmin Hmax Hlen.
  destruct (re_search (Seq Boundary r) text) eqn:E; [|reflexivity].
  apply re_search_sound in E as (pre & w & post & -> & H).
  destruct (digit_run_whole r pre w post Hd He Hmin H) as [-> ->].
  destruct H as (w1 & w2 & E & (-> & _) & H2). simpl in E. subst w2.
  apply (matches_max is_ascii_digit some_ascii_digit some_ascii_digit_ok _ b)
    in H2; [|exact Hmax].
  rewrite count_all in H2.
  - simpl in Hlen. rewrite app_nil_r in Hlen. lia.
  - simpl in Hd. rewrite app_nil_r in Hd.
    eapply Forall_impl; [exact Hd|]. intros c. apply is_ascii_digit_spec.
Qed.

Lemma zeros_search (n : nat) :
  (n <= 16)%nat ->
  re_search email_re (replicate n 0x30) = false
  /\ re_search phone_re (replicate n 0x30) = ((7 <=? n) && (n <=? 13))%nat
  /\ re_search card_re (replicate n 0x30) = ((13 <=? n) && (n <=? 16))%nat.
Proof.
  intros H.
  do 17 (destruct n as [|n]; [repeat split; vm_compute; reflexivity|]). lia.
Qed.

(** X5. A text of ASCII digits only is never flagged "email"; it is flagged
    "phone" exactly when it has 7 to 13 digits and "card-ish" exactly when it
    has 13 to 16. *)
Theorem pii_scan_digit_run (text : str) :
  Forall ascii_digit text ->
  (lit "email" ∉ pii_scan text)
  /\ (lit "phone" ∈ pii_scan text <-> (7 <= length text <= 13)%nat)
  /\ (lit "card-ish" ∈ pii_scan text <-> (13 <= length text <= 16)%nat).
Proof.
  intros Hd.
  assert (Hs : re_search email_re text = false
               /\ re_search phone_re text
                  = ((7 <=? length text) && (length text <=? 13))%nat
               /\ re_search card_re text
                  = ((13 <=? length text) && (length text <=? 16))%nat).
  { destruct (le_lt_dec (length text) 16) as [Hle|Hgt].
    - rewrite (re_search_alike digits digits_word email_re _ _ email_re_digits
                 (digits_replicate text Hd)).
      rewrite (re_search_alike digits digits_word phone_re _ _ phone_re_digits
                 (digits_replicate text Hd)).
      rewrite (re_search_alike digits digits_word card_re _ _ card_re_digits
                 (digits_replicate text Hd)).
      apply zeros_search. exact Hle.
    - split; [|split].
      + destruct (re_search email_re text) eqn:E; [|reflexivity].
        apply re_search_sound in E.
        apply (occurs_min _ (only (chr "@")) (only_ok (chr "@"))) in E.
        apply count_pos_elem in E. rewrite Forall_forall in Hd.
        apply Hd in E. unfold ascii_digit in E. vm_compute in E.
        destruct E as [_ E]. exfalso. apply E. reflexivity.
      + replace ((7 <=? length text) && (length text <=? 13))%nat with false.
        * apply (digit_run_too_long _ 13 text Hd); [reflexivity|simpl; lia|
            reflexivity|lia].
        * symmetry. apply andb_false_intro2. apply Nat.leb_gt. lia.
      + replace ((13 <=? length text) && (length text <=? 16))%nat with false.
        * apply (digit_run_too_long _ 16 text Hd); [reflexivity|simpl; lia|
            reflexivity|lia].
        * symmetry. apply andb_false_intro2. apply Nat.leb_gt. lia. }
  destruct Hs as (He & Hp & Hc).
  destruct (pii_scan_flag text) as (Fe & Fp & Fc).
  split; [|split].
  - intros H. apply Fe in H. congruence.
  - rewrite Fp, Hp, andb_true_iff, !Nat.leb_le. reflexivity.
  - rewrite Fc, Hc, andb_true_iff, !Nat.leb_le. reflexivity.
Qed.

End DigitRuns.

(** ** Trimming *)

Lemma last_rev (s : str) : last (rev s) = head s.
Proof. destruct s as [|c s]; simpl; [reflexivity|apply last_snoc]. Qed.

Lemma head_rev (s : str) : head (rev s) = last s.
Proof. rewrite <- (rev_involutive s) at 2. symmetry. apply last_rev. Qed.

Lemma lstrip_split (s : str) :
  exists ws, s = ws ++ lstrip s /\ Forall (fun c => isspace c = true) ws.
Proof.
  induction s as [|c s (ws & E & Hws)]; simpl.
  - exists []. split; [reflexivity|constructor].
  - destruct (isspace c) eqn:Hc.
    + exists (c :: ws). split; [simpl; rewrite <- E; reflexivity|].
      constructor; assumption.
    + exists []. split; [reflexivity|constructor].
Qed.

Lemma lstrip_head (s : str) c :
  head (lstrip s) = Some c -> isspace c = false.
Proof.
  induction s as [|x s IH]; simpl; [discriminate|].
  destruct (isspace x) eqn:Hx; [exact IH|]. simpl. intros [= <-]. exact Hx.
Qed.

Lemma lstrip_id (s : str) :
  (forall c, head s = Some c -> isspace c = false) -> lstrip s = s.
Proof.
  destruct s as [|c s]; simpl; [reflexivity|]. intros H.
  rewrite (H c eq_refl). reflexivity.
Qed.

Lemma lstrip_nil (s : str) :
  lstrip s = [] <-> Forall (fun c => isspace c = true) s.
Proof.
  induction s as [|c s IH]; simpl.
  - split; [constructor|reflexivity].
  - destruct (isspace c) eqn:Hc.
    + rewrite IH. split; [intros H; constructor; assumption|].
      intros H. inversion H; assumption.
    + split; [discriminate|]. intros H. inversion H; congruence.
Qed.

(** [s.strip()] is empty exactly when [s] holds white space only. *)
Lemma strip_nil (s : str) :
  strip s = [] <-> Forall (fun c => isspace c = true) s.
Proof.
  unfold strip, rstrip. split.
  - intros H. apply (f_equal (@rev N)) in H. rewrite rev_involutive in H.
    simpl in H. apply lstrip_nil in H. apply Forall_rev in H.
    rewrite rev_involutive in H.
    destruct (lstrip_split s) as (ws & E & Hws). rewrite E.
    apply Forall_app. split; assumption.
  - intros H. apply lstrip_nil in H. rewrite H. reflexivity.
Qed.

(** The trimmed text is a part of the text between white space. *)
Lemma strip_split (s : str) :
  exists l r, s = l ++ strip s ++ r
              /\ Forall (fun c => isspace c = true) l
              /\ Forall (fun c => isspace c = true) r.
Proof.
  destruct (lstrip_split s) as (l & El & Hl).
  destruct (lstrip_split (rev (lstrip s))) as (r & Er & Hr).
  exists l, (rev r). split; [|split; [exact Hl|apply Forall_rev; exact Hr]].
  unfold strip, rstrip. rewrite <- rev_app_distr, <- Er, rev_involutive.
  exact El.
Qed.

(** The trimmed text neither starts nor ends with white space. *)
Lemma strip_ends (s : str) c :
  (head (strip s) = Some c -> isspace c = false)
  /\ (last (strip s) = Some c -> isspace c = false).
Proof.
  unfold strip, rstrip. split.
  - intros H.
    destruct (lstrip_split (rev (lstrip s))) as (r & Er & _).
    apply (f_equal (@rev N)) in Er. rewrite rev_involutive, rev_app_distr in Er.
    apply (lstrip_head s c). rewrite Er.
    destruct (rev (lstrip (rev (lstrip s)))); [discriminate H|exact H].
  - rewrite last_rev. apply lstrip_head.
Qed.

(** Trimming twice is trimming once. *)
Lemma strip_idempotent (s : str) : strip (strip s) = strip s.
Proof.
  assert (E1 : lstrip (strip s) = strip s).
  { apply lstrip_id. intros c. apply strip_ends. }
  unfold strip at 1, rstrip. rewrite E1.
  rewrite lstrip_id; [apply rev_involutive|].
  intros c. rewrite head_rev. apply strip_ends.
Qed.

Lemma join_blank (args : list str) :
  blank (join (lit " ") args) <-> Forall blank args.
Proof.
  unfold blank. induction args as [|x [|y args] IH].
  - simpl. split; constructor.
  - simpl. split; [intros H; repeat constructor; exact H|].
    intros H. inversion H; assumption.
  - change (join (lit " ") (x :: y :: args))
      with (x ++ lit " " ++ join (lit " ") (y :: args)).
    rewrite !Forall_app, IH. split.
    + intros (Hx & _ & Hrest). constructor; assumption.
    + intros H. inversion H as [|? ? Hx Hrest]; subst.
      split; [exact Hx|]. split; [repeat constructor|exact Hrest].
Qed.

(** X15. The text the CLI makes of its arguments is empty after trimming
    exactly when every argument holds white space only (or there is none). *)
Theorem cli_arguments_blank (argv : list str) :
  strip (join (lit " ") (tail argv)) = [] <-> Forall blank (tail argv).
Proof. rewrite strip_nil. apply join_blank. Qed.

(** X7. The ground-truth step done twice is the step done once. *)
Theorem enforce_ground_truth_idempotent (out : QuestionReview) (q : str) :
  enforce_ground_truth (enforce_ground_truth out q) q
  = enforce_ground_truth out q.
Proof.
  destruct (enforce_ground_truth_spec out q) as (Hs & _).
  destruct (enforce_ground_truth_spec (enforce_ground_truth out q) q)
    as (_ & _ & Hsame).
  apply Hsame. exact Hs.
Qed.







Lemma classic_lists (raw : RawReview) :
  lists_present CLI raw \/ ~ lists_present CLI raw.
Proof.
  unfold lists_present.
  destruct (raw_missing_info raw) as [mi|];
    [|right; intros ([? [=]] & _)].
  destruct (raw_assumptions raw) as [asm|];
    [|right; intros (_ & [? [=]] & _)].
  destruct (raw_followups raw) as [fu|];
    [|right; intros (_ & _ & [? [=]])].
  left. split; [eexists; reflexivity|split; eexists; reflexivity].
Qed.

(** X10. What the CLI accepts the UI accepts, with the same record; the UI
    also accepts a candidate that leaves out one of the three lists, which the
    CLI refuses. *)
Theorem validate_CLI_ST (raw : RawReview) :
  (forall out, QuestionReview_validate CLI raw = Some out ->
               QuestionReview_validate ST raw = Some out)
  /\ (lists_present CLI raw ->
      QuestionReview_validate CLI raw = QuestionReview_validate ST raw)
  /\ (~ lists_present CLI raw -> QuestionReview_validate CLI raw = None).
Proof.
  assert (Heq : lists_present CLI raw ->
                QuestionReview_validate CLI raw = QuestionReview_validate ST raw).
  { intros ([mi Hmi] & [asm Hasm] & [fu Hfu]).
    unfold QuestionReview_validate, list_field, Field_required,
      Field_default_list. rewrite Hmi, Hasm, Hfu. reflexivity. }
  assert (Hnone : ~ lists_present CLI raw ->
                  QuestionReview_validate CLI raw = None).
  { intros Hn. unfold QuestionReview_validate, list_field, Field_required.
    destruct (raw_missing_info raw) as [mi|] eqn:Hmi; [|reflexivity].
    destruct (raw_assumptions raw) as [asm|] eqn:Hasm; [|reflexivity].
    destruct (raw_followups raw) as [fu|] eqn:Hfu; [|reflexivity].
    exfalso. apply Hn. unfold lists_present. rewrite Hmi, Hasm, Hfu.
    split; [eexists; reflexivity|split; eexists; reflexivity]. }
  split; [|split; assumption].
  intros out H. destruct (classic_lists raw) as [Hl|Hl].
  - rewrite <- (Heq Hl). exact H.
  - rewrite (Hnone Hl) in H. discriminate H.
Qed.

(** ** Whole runs *)

Ltac split_run H :=
  repeat match type of H with
         | context [truthy_opt ?o] =>
             let E := fresh "E" in destruct (truthy_opt o) eqn:E; simpl in H |- *
         | context [truthy ?s] =>
             let E := fresh "E" in destruct (truthy s) eqn:E; simpl in H |- *
         | context [match ?l with [] => _ | _ :: _ => _ end] =>
             is_var l; destruct l; simpl in H |- *
         | context [match ?x with Some _ => _ | None => _ end] =>
             let E := fresh "E" in destruct x eqn:E; simpl in H |- *
         end.

Ltac pick_event H :=
  repeat (apply elem_of_cons in H as [H|H]; [try discriminate H|]);
  try (apply elem_of_nil in H; contradiction).

Lemma validated_bounds (fe : frontend) (raw : RawReview) (out0 : QuestionReview)
    (q : str) :
  QuestionReview_validate fe raw = Some out0 ->
  scores_ok (scores (enforce_ground_truth out0 q))
  /\ (length (minimal (rewrites (enforce_ground_truth out0 q))) <= 280)%nat
  /\ (length (ideal (rewrites (enforce_ground_truth out0 q))) <= 280)%nat
  /\ flags (enforce_ground_truth out0 q) = default [] (raw_flags raw).
Proof.
  intros H.
  assert (Hf : flags (enforce_ground_truth out0 q) = flags out0
               /\ scores (enforce_ground_truth out0 q) = scores out0
               /\ rewrites (enforce_ground_truth out0 q) = rewrites out0).
  { unfold enforce_ground_truth. destruct (decide _); simpl; auto. }
  destruct Hf as (-> & -> & ->).
  apply QuestionReview_validate_Some in H
    as (mi & asm & fu & cl & sc & rw & _ & _ & _ & _ & Hsc & Hrw & ->).
  apply ScoresModel_validate_Some in Hsc as [Hsc ->].
  apply RewritesModel_validate_Some in Hrw as (Hm & Hi & ->). simpl.
  split; [exact Hsc|]. split; [exact Hm|]. split; [exact Hi|reflexivity].
Qed.

(** X17. Whatever the CLI prints, in any run, is the validated answer of the
    backend to the one question asked, with the ground-truth step applied:
    its [original_question] is the question up to white space at the ends,
    its scores lie in 0..10, its rewrites have at most 280 code points, and
    its flags are those of the backend's answer: the script adds none. *)
Theorem cli_output_valid (dotenv environ : gmap string str)
    (argv lines : list str) (b : backend) (out : QuestionReview) :
  PrintJson out ∈ trace (cli.script dotenv environ argv b (start lines)).1 ->
  exists q raw out0,
    Run q ∈ trace (cli.script dotenv environ argv b (start lines)).1
    /\ b q = Some raw /\ QuestionReview_validate CLI raw = Some out0
    /\ out = enforce_ground_truth out0 q
    /\ strip (original_question out) = q
    /\ scores_ok (scores out)
    /\ (length (minimal (rewrites out)) <= 280)%nat
    /\ (length (ideal (rewrites out)) <= 280)%nat
    /\ flags out = default [] (raw_flags raw).
Proof.
  intros H. revert H. run. intros H. split_run H; pick_event H.
  all: injection H as ->.
  all: match goal with
       | Hb : _ ?q = Some ?raw, Hv : QuestionReview_validate CLI ?raw = Some ?o
         |- _ =>
           exists q, raw, o;
           destruct (validated_bounds CLI raw o q Hv) as (Hs & Hm & Hi & Hf);
           destruct (enforce_ground_truth_spec o q) as (Hq & _);
           split; [apply list_elem_of_further;
                   first [apply list_elem_of_here
                         |apply list_elem_of_further, list_elem_of_here]|];
           split; [exact Hb|]; split; [exact Hv|]; split; [reflexivity|];
           split; [rewrite Hq; apply strip_idempotent|];
           split; [exact Hs|]; split; [exact Hm|]; split; assumption
       end.
Qed.

(** X18. Whatever the UI draws, in any run, is the view of the validated
    answer of the backend to the text of the text area, with the ground-truth
    step applied: the button was pressed, the record's [original_question] is
    that text up to white space at the ends, its scores lie in 0..10, its
    rewrites and the lengths shown under them are at most 280, the three
    lists are drawn with at most 6, 6 and 5 entries, and the flags drawn are
    those of the backend's answer. *)
Theorem st_output_valid (dotenv environ : gmap string str)
    (secrets : option (gmap string str))
    (user_q : str) (run_btn : bool) (b : backend) (lines : list str) (v : view) :
  StRender v
  ∈ trace (st.script dotenv environ secrets user_q run_btn b (start lines)).1 ->
  run_btn = true
  /\ exists raw out0,
       b user_q = Some raw /\ QuestionReview_validate ST raw = Some out0
       /\ v = st.render (enforce_ground_truth out0 user_q)
       /\ strip (original_question (view_raw v)) = strip user_q
       /\ scores_ok (scores (view_raw v))
       /\ view_minimal v = (minimal (rewrites (view_raw v)),
                            length (minimal (rewrites (view_raw v))))
       /\ view_ideal v = (ideal (rewrites (view_raw v)),
                          length (ideal (rewrites (view_raw v))))
       /\ ((view_minimal v).2 <= 280)%nat /\ ((view_ideal v).2 <= 280)%nat
       /\ (length (view_missing_info v) <= 6)%nat
       /\ (length (view_assumptions v) <= 6)%nat
       /\ (length (view_followups v) <= 5)%nat
       /\ view_flags v = default [] (raw_flags raw).
Proof.
  intros H. revert H. run. intros H.
  destruct secrets as [file|]; simpl in H; [|pick_event H].
  destruct run_btn; simpl in H; split_run H; pick_event H.
  all: injection H as ->.
  all: split; [reflexivity|].
  all: match goal with
  | Hv : QuestionReview_validate ST ?raw = Some ?o |- _ =>
      exists raw, o;
      destruct (validated_bounds ST raw o user_q Hv) as (Hs & Hm & Hi & Hf);
      destruct (enforce_ground_truth_spec o user_q) as (Hq & _);
      split; [reflexivity|]; split; [exact Hv|]; split; [reflexivity|];
      split; [exact Hq|]; split; [exact Hs|];
      split; [reflexivity|]; split; [reflexivity|];
      split; [exact Hm|]; split; [exact Hi|];
      split; [simpl; rewrite length_take; lia|];
      split; [simpl; rewrite length_take; lia|];
      split; [simpl; rewrite length_take; lia|exact Hf]
  end.
Qed.

(** X19. A run issues at most one generation request and gives at most one
    output, in the CLI and in the UI. *)
Theorem one_request_per_run (dotenv environ : gmap string str)
    (secrets : option (gmap string str))
    (argv lines : list str) (user_q : str) (run_btn : bool) (b : backend) :
  (length (List.filter is_Run
             (trace (cli.script dotenv environ argv b (start lines)).1)) <= 1)%nat
  /\ (length (List.filter is_output
                (trace (cli.script dotenv environ argv b (start lines)).1)) <= 1)%nat
  /\ (length (List.filter is_Run
                (trace (st.script dotenv environ secrets user_q run_btn b
                          (start lines)).1)) <= 1)%nat
  /\ (length (List.filter is_output
                (trace (st.script dotenv environ secrets user_q run_btn b
                          (start lines)).1)) <= 1)%nat.
Proof.
  run. destruct secrets as [file|]; simpl.
  all: repeat match goal with
         | |- context [truthy_opt ?o] => destruct (truthy_opt o); simpl
         | |- context [truthy ?s] => destruct (truthy s); simpl
         | |- context [match ?l with [] => _ | _ :: _ => _ end] =>
             is_var l; destruct l; simpl
         | |- context [match ?x with Some _ => _ | None => _ end] =>
             destruct x; simpl
         | |- context [if ?x then _ else _] => is_var x; destruct x; simpl
         end; repeat split; lia.
Qed.

(** X20. The CLI ends with exit status 0 exactly when it has printed a
    record. *)
Theorem cli_exit_status (dotenv environ : gmap string str)
    (argv lines : list str) (b : backend) :
  exit_status (cli.script dotenv environ argv b (start lines)).2 = 0%Z
  <-> exists out,
        PrintJson out ∈ trace (cli.script dotenv environ argv b (start lines)).1.
Proof.
  run.
  repeat match goal with
         | |- context [truthy_opt ?o] => destruct (truthy_opt o); simpl
         | |- context [truthy ?s] => destruct (truthy s); simpl
         | |- context [match ?l with [] => _ | _ :: _ => _ end] =>
             is_var l; destruct l; simpl
         | |- context [match ?x with Some _ => _ | None => _ end] =>
             destruct x; simpl
         end.
  all: split;
    [intros H; try discriminate H; eexists;
     repeat first [apply list_elem_of_here|apply list_elem_of_further]
    |intros [out H]; pick_event H; reflexivity].
Qed.

(** X14. Where the CLI takes its question from. When its arguments, joined by
    blanks and trimmed, are not empty, the question is that text, nothing is
    read from the standard input and no prompt appears. Otherwise it reads
    one line, and the question is that line trimmed. *)
Theorem cli_question_source (dotenv environ : gmap string str)
    (argv lines : list str) (b : backend) :
  (truthy (strip (join (lit " ") (tail argv))) = true ->
   stdin (cli.script dotenv environ argv b (start lines)).1 = lines
   /\ Forall (fun e => is_Input e = false)
        (trace (cli.script dotenv environ argv b (start lines)).1)
   /\ forall q, Run q ∈ trace (cli.script dotenv environ argv b (start lines)).1 ->
                q = strip (join (lit " ") (tail argv)))
  /\ (truthy (strip (join (lit " ") (tail argv))) = false ->
      forall q, Run q ∈ trace (cli.script dotenv environ argv b (start lines)).1 ->
        exists l rest, lines = l :: rest /\ q = strip l
          /\ stdin (cli.script dotenv environ argv b (start lines)).1 = rest).
Proof.
  split; intros Ha.
  - run. rewrite Ha. simpl.
    destruct (truthy_opt (cli.api_key dotenv environ)); simpl;
      [|split; [reflexivity|split; [constructor|intros q' H; pick_event H]]].
    rewrite Ha. simpl.
    destruct (b _) as [raw|]; simpl;
      [destruct (QuestionReview_validate CLI raw); simpl|].
    all: split; [reflexivity|].
    all: split; [repeat constructor|].
    all: intros q' H; pick_event H; injection H as ->; reflexivity.
  - intros q H. revert H. run. rewrite Ha. simpl. intros H.
    split_run H; rewrite ?Ha in H; simpl in H; pick_event H.
    all: injection H as ->; eexists _, _; repeat split.
Qed.

(** X13. The UI sends the text of the text area as it is, not trimmed, and
    only in a run in which the button was pressed. *)
Theorem st_question_verbatim (dotenv environ : gmap string str)
    (secrets : option (gmap string str))
    (user_q : str) (run_btn : bool) (b : backend) (lines : list str) (q : str) :
  Run q ∈ trace (st.script dotenv environ secrets user_q run_btn b (start lines)).1 ->
  q = user_q /\ run_btn = true.
Proof.
  intros H. revert H. run. intros H.
  destruct secrets as [file|]; simpl in H; [|pick_event H].
  destruct run_btn; simpl in H; split_run H; pick_event H.
  all: injection H as ->; split; reflexivity.
Qed.




(** ** Characters around a text *)

Section Around.
Context {U : Unicode}.

Lemma head_app_word (w t t' : str) :
  word_at (head t) = word_at (head t') ->
  word_at (head (w ++ t)) = word_at (head (w ++ t')).
Proof. destruct w; simpl; auto. Qed.

Lemma after_word p p' (w : str) :
  word_at p = word_at p' -> word_at (after p w) = word_at (after p' w).
Proof. unfold after. destruct (last w); auto. Qed.

(** A match looks at the text behind it only to see whether a word character
    comes next ... *)
Lemma matches_rest (r : regex) p w t t' :
  word_at (head t) = word_at (head t') -> matches r p w t -> matches r p w t'.
Proof.
  revert p w t t'.
  induction r as [items| |r1 IH1 r2 IH2|lo hi greedy body IH];
    simpl; intros p w t t' Ht H.
  - exact H.
  - destruct H as (-> & H). split; [reflexivity|].
    unfold at_boundary in *. rewrite <- Ht. exact H.
  - destruct H as (w1 & w2 & -> & H1 & H2). exists w1, w2.
    split; [reflexivity|]. split.
    + apply (IH1 _ _ (w2 ++ t)); [apply head_app_word; exact Ht|exact H1].
    + apply (IH2 _ _ t); assumption.
  - destruct H as (n & Hn & Hh & Hn'). exists n. split; [exact Hn|].
    split; [exact Hh|]. clear Hn Hh.
    induction Hn' as [|n p w1 w2 t H1 Hn' IHn]; [constructor|].
    constructor.
    + apply (IH _ _ (w2 ++ t)); [apply head_app_word; exact Ht|exact H1].
    + apply IHn. exact Ht.
Qed.

(** ... and at the character before it only to see whether it is one. *)
Lemma matches_prev (r : regex) p p' w t :
  word_at p = word_at p' -> matches r p w t -> matches r p' w t.
Proof.
  revert p p' w t.
  induction r as [items| |r1 IH1 r2 IH2|lo hi greedy body IH];
    simpl; intros p p' w t Hp H.
  - exact H.
  - destruct H as (-> & H). split; [reflexivity|].
    unfold at_boundary in *. rewrite <- Hp. exact H.
  - destruct H as (w1 & w2 & -> & H1 & H2). exists w1, w2.
    split; [reflexivity|]. split.
    + apply (IH1 p); assumption.
    + apply (IH2 (after p w1)); [apply after_word; exact Hp|exact H2].
  - destruct H as (n & Hn & Hh & Hn'). exists n. split; [exact Hn|].
    split; [exact Hh|]. clear Hn Hh. revert p' Hp.
    induction Hn' as [|n p w1 w2 t H1 Hn' IHn]; intros p' Hp; [constructor|].
    constructor.
    + apply (IH p); assumption.
    + apply IHn. apply after_word. exact Hp.
Qed.

Lemma delimited_match (r : regex) p w t :
  delimited r -> matches r p w t ->
  at_boundary p (w ++ t) = true /\ at_boundary (after p w) t = true
  /\ w <> [].
Proof.
  intros (r' & -> & He & Hmin) H.
  split; [apply (matches_start r'); exact H|].
  destruct H as (w1 & w2 & -> & (-> & _) & H2). simpl.
  split; [apply (matches_end r'); assumption|].
  apply (matches_min (fun _ => true) (fun _ => true)) in H2; [|reflexivity].
  intros ->. simpl in H2. lia.
Qed.

Lemma occurs_cons (r : regex) c (text : str) :
  delimited r -> isword c = false -> occurs r (c :: text) <-> occurs r text.
Proof.
  intros Hd Hc. split.
  - intros (pre & w & post & E & H).
    destruct (delimited_match r _ _ _ Hd H) as (Hs & _ & Hne).
    destruct pre as [|x pre].
    + destruct w as [|y w]; [contradiction|]. simpl in E.
      injection E as E1 E2. subst y. unfold at_boundary in Hs. simpl in Hs.
      rewrite Hc in Hs. discriminate Hs.
    + simpl in E. injection E as E1 E2. subst x text. exists pre, w, post.
      split; [reflexivity|].
      apply (matches_prev r (last (c :: pre))); [|exact H].
      destruct pre; [simpl; exact Hc|reflexivity].
  - intros (pre & w & post & -> & H). exists (c :: pre), w, post.
    split; [reflexivity|].
    apply (matches_prev r (last pre)); [|exact H].
    destruct pre; [simpl; symmetry; exact Hc|reflexivity].
Qed.

Lemma occurs_snoc (r : regex) c (text : str) :
  delimited r -> isword c = false -> occurs r (text ++ [c]) <-> occurs r text.
Proof.
  intros Hd Hc. split.
  - intros (pre & w & post & E & H).
    destruct (delimited_match r _ _ _ Hd H) as (_ & He & Hne).
    destruct (decide (post = [])) as [->|Hpost].
    + rewrite app_nil_r in E.
      destruct (exists_last Hne) as (w' & y & ->).
      rewrite app_assoc in E. apply app_inj_tail in E as [_ Ey]. subst y.
      unfold after in He. rewrite last_snoc in He.
      unfold at_boundary in He. simpl in He. rewrite Hc in He.
      discriminate He.
    + destruct (exists_last Hpost) as (post' & y & ->).
      rewrite !app_assoc in E. apply app_inj_tail in E as [E Ey]. subst y text.
      exists pre, w, post'. split; [rewrite <- app_assoc; reflexivity|].
      apply (matches_rest r _ _ (post' ++ [c])); [|exact H].
      destruct post'; [simpl; exact Hc|reflexivity].
  - intros (pre & w & post & -> & H). exists pre, w, (post ++ [c]).
    split; [rewrite <- !app_assoc; reflexivity|].
    apply (matches_rest r _ _ post); [|exact H].
    destruct post; [simpl; symmetry; exact Hc|reflexivity].
Qed.

Lemma re_search_eq (r : regex) (s t : str) :
  loops_consume r = true -> (occurs r s <-> occurs r t) ->
  re_search r s = re_search r t.
Proof.
  intros Hl H. apply eq_true_iff_eq.
  rewrite !(re_search_occurs r _ Hl). exact H.
Qed.

Lemma occurs_around (r : regex) (l text t : str) :
  delimited r -> Forall (fun c => isword c = false) l ->
  Forall (fun c => isword c = false) t ->
  occurs r (l ++ text ++ t) <-> occurs r text.
Proof.
  intros Hd Hl Ht.
  assert (Hright : occurs r (text ++ t) <-> occurs r text).
  { revert Ht. induction t as [|c t IH] using rev_ind; intros Ht.
    - rewrite app_nil_r. reflexivity.
    - apply Forall_app in Ht as [Ht Hc]. apply Forall_cons in Hc as [Hc _].
      rewrite app_assoc, occurs_snoc by assumption. apply IH. exact Ht. }
  induction Hl as [|c l Hc _ IH]; simpl; [exact Hright|].
  rewrite occurs_cons by assumption. exact IH.
Qed.

End Around.

Section AroundScan.
Context {U : Unicode}.

Lemma patterns_delimited :
  delimited email_re /\ delimited phone_re /\ delimited card_re.
Proof.
  repeat split; eexists; (split; [reflexivity|]);
    (split; [reflexivity|simpl; lia]).
Qed.

Lemma searches_around (l text t : str) :
  Forall (fun c => isword c = false) l ->
  Forall (fun c => isword c = false) t ->
  re_search email_re (l ++ text ++ t) = re_search email_re text
  /\ re_search phone_re (l ++ text ++ t) = re_search phone_re text
  /\ re_search card_re (l ++ text ++ t) = re_search card_re text.
Proof.
  intros Hl Ht. destruct patterns_delimited as (He & Hp & Hc).
  repeat split; apply re_search_eq; try reflexivity;
    apply occurs_around; assumption.
Qed.

(** X22. Characters that are not word characters, put before or behind a
    text, change no flag: the scanner reports for the longer text what it
    reports for the text itself. *)
Theorem pii_scan_around (l text t : str) :
  Forall (fun c => isword c = false) l ->
  Forall (fun c => isword c = false) t ->
  pii_scan (l ++ text ++ t) = pii_scan text.
Proof.
  intros Hl Ht.
  destruct (searches_around l text t Hl Ht) as (Ee & Ep & Ec).
  rewrite !pii_scan_cases, Ee, Ep, Ec. reflexivity.
Qed.

(** X23. Trimming changes no flag: the scanner reports for [text.strip()]
    what it reports for [text], so the CLI, which asks with the trimmed text,
    and the UI, which asks with the text as typed, stand for the same flags.
    The white space of the text must not count as word characters. *)
Theorem pii_scan_strip (text : str) :
  Forall (fun c => isspace c = true -> isword c = false) text ->
  pii_scan (strip text) = pii_scan text.
Proof.
  intros H. destruct (strip_split text) as (l & t & E & Hl & Ht).
  rewrite E in H.
  apply Forall_app in H as [Hl' H]. apply Forall_app in H as [_ Ht'].
  assert (Wl : Forall (fun c => isword c = false) l)
    by (rewrite Forall_forall in *; auto).
  assert (Wt : Forall (fun c => isword c = false) t)
    by (rewrite Forall_forall in *; auto).
  destruct (searches_around l (strip text) t Wl Wt) as (Ee & Ep & Ec).
  rewrite (pii_scan_cases (strip text)), <- Ee, <- Ep, <- Ec, <- E.
  symmetry. apply pii_scan_cases.
Qed.

End AroundScan.

(** ** Instances *)

Lemma card_number_flagged_witness :
  lit "card-ish" ∈ @pii_scan ascii_only (lit "card 4111 1111 1111 1111").
Proof.
  change (lit "card 4111 1111 1111 1111")
    with (lit "card " ++ grouped sample_card ++ []).
  apply (@card_number_flagged ascii_only (lit "card ") [] sample_card).
  - simpl. lia.
  - repeat constructor; vm_compute; discriminate.
  - reflexivity.
  - reflexivity.
Defined.

Lemma phone_number_flagged_witness :
  lit "phone" ∈ @pii_scan ascii_only (lit "call 555-123-4567 now").
Proof.
  change (lit "call 555-123-4567 now")
    with (lit "call 555-" ++ lit "123" ++ lit "-" ++ lit "4567" ++ lit " now").
  apply (@phone_number_flagged ascii_only).
  - reflexivity.
  - reflexivity.
  - repeat constructor; vm_compute; discriminate.
  - repeat constructor; vm_compute; discriminate.
  - right. exists (chr "-"). split; reflexivity.
  - reflexivity.
  - reflexivity.
Defined.

Lemma email_address_flagged_witness :
  lit "email" ∈ @pii_scan ascii_only (lit "contact me at jane.doe@acme.com").
Proof.
  change (lit "contact me at jane.doe@acme.com")
    with (lit "contact me at " ++ (chr "j" :: lit "ane.doe") ++ [chr "@"]
          ++ lit "acme" ++ [chr "."] ++ lit "com" ++ []).
  apply (@email_address_flagged ascii_only).
  - reflexivity.
  - repeat constructor.
  - discriminate.
  - repeat constructor.
  - simpl. lia.
  - repeat constructor.
  - reflexivity.
  - reflexivity.
Defined.

Lemma pii_scan_digit_run_witness :
  (lit "email" ∉ @pii_scan ascii_only (lit "1234567890123"))
  /\ (lit "phone" ∈ @pii_scan ascii_only (lit "1234567890123")
      <-> (7 <= 13 <= 13)%nat)
  /\ (lit "card-ish" ∈ @pii_scan ascii_only (lit "1234567890123")
      <-> (13 <= 13 <= 16)%nat).
Proof.
  apply (@pii_scan_digit_run ascii_only (lit "1234567890123")).
  repeat constructor; vm_compute; discriminate.
Defined.

Lemma cli_script_eof_witness :
  cli.script ∅ with_key [lit "askBetterAgentCLI.py"] (fun _ => Some paraphrased)
    (start [])
  = ({| stdin := [];
        trace := [SetClient (lit "sk-test"); Input (lit "Enter your question: ")] |},
     inl EOFError).
Proof.
  apply (cli_script_eof ∅ with_key [lit "askBetterAgentCLI.py"] (lit "sk-test")
           (fun _ => Some paraphrased)); reflexivity.
Defined.

Lemma st_question_verbatim_witness :
  lit " Fix this SQL? " = lit " Fix this SQL? " /\ true = true.
Proof.
  apply (st_question_verbatim ∅ with_key (Some ∅) (lit " Fix this SQL? ") true
           (fun _ => Some paraphrased) [] (lit " Fix this SQL? ")).
  vm_compute. apply list_elem_of_further, list_elem_of_here.
Defined.

Lemma cli_output_valid_witness :
  exists q raw out0,
    Run q ∈ trace (cli.script ∅ with_key
                     [lit "askBetterAgentCLI.py"; lit "How"; lit "to"; lit "index"; lit "JSONB?"]
                     (fun _ => Some paraphrased) (start [])).1
    /\ (fun _ : str => Some paraphrased) q = Some raw
    /\ QuestionReview_validate CLI raw = Some out0
    /\ paraphrased_out = enforce_ground_truth out0 q
    /\ strip (original_question paraphrased_out) = q
    /\ scores_ok (scores paraphrased_out)
    /\ (length (minimal (rewrites paraphrased_out)) <= 280)%nat
    /\ (length (ideal (rewrites paraphrased_out)) <= 280)%nat
    /\ flags paraphrased_out = default [] (raw_flags raw).
Proof.
  apply (cli_output_valid ∅ with_key
           [lit "askBetterAgentCLI.py"; lit "How"; lit "to"; lit "index"; lit "JSONB?"]
           [] (fun _ => Some paraphrased) paraphrased_out).
  vm_compute. do 2 apply list_elem_of_further. apply list_elem_of_here.
Defined.

Lemma st_output_valid_witness :
  true = true
  /\ exists raw out0,
       (fun _ : str => Some paraphrased) (lit "How to index JSONB?") = Some raw
       /\ QuestionReview_validate ST raw = Some out0
       /\ st.render paraphrased_out
          = st.render (enforce_ground_truth out0 (lit "How to index JSONB?"))
       /\ strip (original_question (view_raw (st.render paraphrased_out)))
          = strip (lit "How to index JSONB?")
       /\ scores_ok (scores (view_raw (st.render paraphrased_out)))
       /\ view_minimal (st.render paraphrased_out)
          = (minimal (rewrites (view_raw (st.render paraphrased_out))),
             length (minimal (rewrites (view_raw (st.render paraphrased_out)))))
       /\ view_ideal (st.render paraphrased_out)
          = (ideal (rewrites (view_raw (st.render paraphrased_out))),
             length (ideal (rewrites (view_raw (st.render paraphrased_out)))))
       /\ ((view_minimal (st.render paraphrased_out)).2 <= 280)%nat
       /\ ((view_ideal (st.render paraphrased_out)).2 <= 280)%nat
       /\ (length (view_missing_info (st.render paraphrased_out)) <= 6)%nat
       /\ (length (view_assumptions (st.render paraphrased_out)) <= 6)%nat
       /\ (length (view_followups (st.render paraphrased_out)) <= 5)%nat
       /\ view_flags (st.render paraphrased_out) = default [] (raw_flags raw).
Proof.
  apply (st_output_valid ∅ with_key (Some ∅) (lit "How to index JSONB?") true
           (fun _ => Some paraphrased) [] (st.render paraphrased_out)).
  vm_compute. do 2 apply list_elem_of_further. apply list_elem_of_here.
Defined.

Lemma pii_scan_around_witness :
  @pii_scan ascii_only (lit "(" ++ lit "4111 1111 1111 1111" ++ lit "). ")
  = @pii_scan ascii_only (lit "4111 1111 1111 1111").
Proof.
  apply (@pii_scan_around ascii_only); repeat constructor.
Defined.

Lemma pii_scan_strip_witness :
  @pii_scan ascii_only (strip (lit "  mail jane.doe@acme.com  "))
  = @pii_scan ascii_only (lit "  mail jane.doe@acme.com  ").
Proof.
  apply (@pii_scan_strip ascii_only).
  repeat constructor; vm_compute; congruence.
Defined.
